(** * Protocol-client core of the authentication proxy: LDAP client,
      RADIUS client module and the MD4 helper.

    The definitions below are a shallow embedding of

    - [ldaptor/md4.py]                         (module [MD4]),
    - [ldaptor/protocols/ldap/ldapclient.py]   (module [LDAP]),
    - [duoauthproxy/modules/radius_client.py]  (module [Radius]).

    Python integers are unbounded, so they are [Z]; [bytes] objects are
    lists of [Byte.byte]; an exception is the [Raise] outcome of a
    computation. *)

From Stdlib Require Import Strings.String Strings.Byte.
From Stdlib Require Import ZArith List Lia Bool PeanoNat.
Import ListNotations.

Open Scope Z_scope.

(** ** Outcomes of a Python call *)

(** A call returns a value, raises an exception, or -- for the [while]
    loops that are run with a step budget -- has not finished within the
    budget. *)
Inductive outcome (E A : Type) : Type :=
| Ok (a : A)
| Raise (e : E)
| OutOfFuel.

Arguments Ok {E A} a.
Arguments Raise {E A} e.
Arguments OutOfFuel {E A}.

Definition bind {E A B} (m : outcome E A) (k : A -> outcome E B) : outcome E B :=
  match m with
  | Ok a => k a
  | Raise e => Raise e
  | OutOfFuel => OutOfFuel
  end.

Declare Scope py_scope.
Delimit Scope py_scope with py.
Notation "x <- m ;; k" := (bind m (fun x => k))
  (at level 61, m at next level, right associativity) : py_scope.
Notation "m ;;; k" := (bind m (fun _ => k))
  (at level 61, right associativity) : py_scope.

Definition bytes := list byte.

(** [len(x)] as a Python integer. *)
Definition len {A} (l : list A) : Z := Z.of_nat (length l).

(** [l[i] = v] on a Python list, inside its range. *)
Fixpoint list_set {A} (l : list A) (i : nat) (v : A) : list A :=
  match l, i with
  | [], _ => []
  | _ :: t, O => v :: t
  | h :: t, S i' => h :: list_set t i' v
  end.

Lemma list_set_length {A} (l : list A) i v : length (list_set l i v) = length l.
Proof.
  revert i; induction l as [|h t IH]; intros [|i]; simpl; auto.
Qed.

(* ================================================================== *)
(** * ldaptor/md4.py *)
(* ================================================================== *)

Module MD4.

Inductive exn : Type :=
| struct_error      (* struct.pack / struct.unpack refused its argument *)
| IndexError        (* list index out of range *)
| AssertionError.

Definition res := outcome exn.

Local Open Scope py_scope.

Definition F (x y z : Z) : Z := Z.lor (Z.land x y) (Z.land (Z.lnot x) z).

Definition G (x y z : Z) : Z :=
  Z.lor (Z.lor (Z.land x y) (Z.land x z)) (Z.land y z).

Definition MASK_32 : Z := 2 ^ 32 - 1.

(** The object: [_count], [_state] (a list of four ints) and [_buf]. *)
Record md4 : Type := Build_md4 {
  _count : Z;
  _state : list Z;
  _buf : bytes
}.

Definition set_state (self : md4) (s : list Z) : md4 :=
  Build_md4 (_count self) s (_buf self).
Definition set_count (self : md4) (c : Z) : md4 :=
  Build_md4 c (_state self) (_buf self).
Definition set_buf (self : md4) (b : bytes) : md4 :=
  Build_md4 (_count self) (_state self) b.

(** Rows [a, b, c, d, k, s] of the three round tables. *)
Definition row : Type := (nat * nat * nat * nat * nat * nat)%type.

Definition _round1 : list row := [
  (0, 1, 2, 3, 0, 3); (3, 0, 1, 2, 1, 7); (2, 3, 0, 1, 2, 11); (1, 2, 3, 0, 3, 19);
  (0, 1, 2, 3, 4, 3); (3, 0, 1, 2, 5, 7); (2, 3, 0, 1, 6, 11); (1, 2, 3, 0, 7, 19);
  (0, 1, 2, 3, 8, 3); (3, 0, 1, 2, 9, 7); (2, 3, 0, 1, 10, 11); (1, 2, 3, 0, 11, 19);
  (0, 1, 2, 3, 12, 3); (3, 0, 1, 2, 13, 7); (2, 3, 0, 1, 14, 11); (1, 2, 3, 0, 15, 19)
]%nat.

Definition _round2 : list row := [
  (0, 1, 2, 3, 0, 3); (3, 0, 1, 2, 4, 5); (2, 3, 0, 1, 8, 9); (1, 2, 3, 0, 12, 13);
  (0, 1, 2, 3, 1, 3); (3, 0, 1, 2, 5, 5); (2, 3, 0, 1, 9, 9); (1, 2, 3, 0, 13, 13);
  (0, 1, 2, 3, 2, 3); (3, 0, 1, 2, 6, 5); (2, 3, 0, 1, 10, 9); (1, 2, 3, 0, 14, 13);
  (0, 1, 2, 3, 3, 3); (3, 0, 1, 2, 7, 5); (2, 3, 0, 1, 11, 9); (1, 2, 3, 0, 15, 13)
]%nat.

Definition _round3 : list row := [
  (0, 1, 2, 3, 0, 3); (3, 0, 1, 2, 8, 9); (2, 3, 0, 1, 4, 11); (1, 2, 3, 0, 12, 15);
  (0, 1, 2, 3, 2, 3); (3, 0, 1, 2, 10, 9); (2, 3, 0, 1, 6, 11); (1, 2, 3, 0, 14, 15);
  (0, 1, 2, 3, 1, 3); (3, 0, 1, 2, 9, 9); (2, 3, 0, 1, 5, 11); (1, 2, 3, 0, 13, 15);
  (0, 1, 2, 3, 3, 3); (3, 0, 1, 2, 11, 9); (2, 3, 0, 1, 7, 11); (1, 2, 3, 0, 15, 15)
]%nat.

(** [l[i]] and [l[i] = v] with Python's range check. *)
Definition getitem (l : list Z) (i : nat) : res Z :=
  match nth_error l i with
  | Some v => Ok v
  | None => Raise IndexError
  end.

Definition setitem (l : list Z) (i : nat) (v : Z) : res (list Z) :=
  if (i <? length l)%nat then Ok (list_set l i v) else Raise IndexError.

(** *** struct.pack / struct.unpack, little-endian unsigned 32-bit *)

Definition byte_val (b : byte) : Z := Z.of_N (Byte.to_N b).

Definition byte_of_Z (z : Z) : byte :=
  match Byte.of_N (Z.to_N z) with
  | Some b => b
  | None => x00
  end.

Definition le32 (b : bytes) : Z :=
  fold_right (fun x acc => byte_val x + 256 * acc) 0 b.

Fixpoint le_words (n : nat) (b : bytes) : list Z :=
  match n with
  | O => []
  | S n' => le32 (firstn 4 b) :: le_words n' (skipn 4 b)
  end.

(** [struct.unpack("<16I", block)]: exactly 64 bytes are required. *)
Definition unpack_16I (block : bytes) : res (list Z) :=
  if (length block =? 64)%nat then Ok (le_words 16 block) else Raise struct_error.

(** One ["I"] field: the argument must fit 32 unsigned bits. *)
Definition pack_word (w : Z) : res bytes :=
  if (0 <=? w) && (w <=? MASK_32) then
    Ok [ byte_of_Z (Z.land w 255);
         byte_of_Z (Z.land (Z.shiftr w 8) 255);
         byte_of_Z (Z.land (Z.shiftr w 16) 255);
         byte_of_Z (Z.land (Z.shiftr w 24) 255) ]
  else Raise struct_error.

Fixpoint pack_words (ws : list Z) : res bytes :=
  match ws with
  | [] => Ok []
  | w :: t => b <- pack_word w ;; r <- pack_words t ;; Ok (b ++ r)
  end.

(** [struct.pack("<nI", *ws)]: the number of arguments must be [n]. *)
Definition pack_I (n : nat) (ws : list Z) : res bytes :=
  if (length ws =? n)%nat then pack_words ws else Raise struct_error.

(** *** _process *)

Definition rotate (t s : Z) : Z :=
  Z.land (Z.shiftl t s) MASK_32 + Z.shiftr t (32 - s).

Definition round1_step (X : list Z) (state : list Z) (r : row) : res (list Z) :=
  let '(a1, b1, c1, d1, k1, s1) := r in
  sa <- getitem state a1 ;; sb <- getitem state b1 ;;
  sc <- getitem state c1 ;; sd <- getitem state d1 ;;
  xk <- getitem X k1 ;;
  let t := Z.land (sa + F sb sc sd + xk) MASK_32 in
  setitem state a1 (rotate t (Z.of_nat s1)).

Definition round2_step (X : list Z) (state : list Z) (r : row) : res (list Z) :=
  let '(a1, b1, c1, d1, k1, s1) := r in
  sa <- getitem state a1 ;; sb <- getitem state b1 ;;
  sc <- getitem state c1 ;; sd <- getitem state d1 ;;
  xk <- getitem X k1 ;;
  let t := Z.land (sa + G sb sc sd + xk + 0x5a827999) MASK_32 in
  setitem state a1 (rotate t (Z.of_nat s1)).

Definition round3_step (X : list Z) (state : list Z) (r : row) : res (list Z) :=
  let '(a1, b1, c1, d1, k1, s1) := r in
  sa <- getitem state a1 ;; sb <- getitem state b1 ;;
  sc <- getitem state c1 ;; sd <- getitem state d1 ;;
  xk <- getitem X k1 ;;
  let t := Z.land (sa + Z.lxor (Z.lxor sb sc) sd + xk + 0x6ed9eba1) MASK_32 in
  setitem state a1 (rotate t (Z.of_nat s1)).

(** A [for] loop over a table, threading the working copy [state]. *)
Fixpoint for_rows (step : list Z -> row -> res (list Z))
         (table : list row) (state : list Z) : res (list Z) :=
  match table with
  | [] => Ok state
  | r :: rest => s <- step state r ;; for_rows step rest s
  end.

(** [for i in irange(4): orig[i] = (orig[i] + state[i]) & MASK_32]. *)
Fixpoint add_back (idxs : list nat) (orig state : list Z) : res (list Z) :=
  match idxs with
  | [] => Ok orig
  | i :: rest =>
      oi <- getitem orig i ;; si <- getitem state i ;;
      o <- setitem orig i (Z.land (oi + si) MASK_32) ;;
      add_back rest o state
  end.

Definition _process (self : md4) (block : bytes) : res md4 :=
  X <- unpack_16I block ;;
  let orig := _state self in
  let state := orig in
  state <- for_rows (round1_step X) _round1 state ;;
  state <- for_rows (round2_step X) _round2 state ;;
  state <- for_rows (round3_step X) _round3 state ;;
  orig <- add_back [0; 1; 2; 3]%nat orig state ;;
  Ok (set_state self orig).

(** *** update *)

(** [content[i:j]] for [0 <= i <= j]. *)
Definition slice {A} (l : list A) (i j : nat) : list A :=
  firstn (j - i) (skipn i l).

(** The [while True] loop of [update]; [fuel] bounds the number of
    iterations. *)
Fixpoint update_loop (fuel : nat) (self : md4) (content : bytes) (idx : nat)
  : res md4 :=
  match fuel with
  | O => OutOfFuel
  | S fuel' =>
      let next := (idx + 64)%nat in
      if (next <=? length content)%nat then
        self <- _process self (slice content idx next) ;;
        let self := set_count self (_count self + 1) in
        update_loop fuel' self content next
      else
        Ok (set_buf self (skipn idx content))
  end.

Definition update (self : md4) (content : bytes) : res md4 :=
  let buf := _buf self in
  let content := match buf with [] => content | _ => buf ++ content end in
  update_loop (S (length content)) self content 0.

(** [md4(content)]. *)
Definition new (content : option bytes) : res md4 :=
  let self := Build_md4 0 [0x67452301; 0xefcdab89; 0x98badcfe; 0x10325476] [] in
  match content with
  | None | Some [] => Ok self
  | Some c => update self c
  end.

Definition copy (self : md4) : md4 :=
  Build_md4 (_count self) (_state self) (_buf self).

(** *** digest *)

Definition digest (self : md4) : res (bytes * md4) :=
  let orig := _state self in
  let buf := _buf self in
  let msglen := _count self * 512 + len buf * 8 in
  lenbytes <- pack_I 2 [Z.land msglen MASK_32;
                        Z.land (Z.shiftr msglen 32) MASK_32] ;;
  let block := buf ++ [x80]
                   ++ repeat x00 (Z.to_nat ((119 - len buf) mod 64))
                   ++ lenbytes in
  self <- (if (length block =? 128)%nat then
             self <- _process self (firstn 64 block) ;;
             _process self (skipn 64 block)
           else if (length block =? 64)%nat then
             _process self block
           else Raise AssertionError) ;;
  out <- pack_I 4 (_state self) ;;
  Ok (out, set_state self orig).


(** *** The class invariant

    Every [md4] object holds four 32-bit registers and fewer than 64
    pending bytes: the constructor establishes this, and [update],
    [copy] and [digest] maintain it (lemmas [wf_new], [update_wf],
    [wf_copy] and the claim's theorem below). *)

Definition word32 (w : Z) : Prop := 0 <= w <= MASK_32.

Definition wf (h : md4) : Prop :=
  length (_state h) = 4%nat /\ Forall word32 (_state h) /\
  (length (_buf h) < 64)%nat.

Definition row_okb (r : row) : bool :=
  let '(a1, b1, c1, d1, k1, _) := r in
  ((a1 <? 4) && (b1 <? 4) && (c1 <? 4) && (d1 <? 4) && (k1 <? 16))%nat.

Lemma land_mask_word32 x : word32 (Z.land x MASK_32).
Proof.
  unfold word32, MASK_32.
  change (2 ^ 32 - 1) with (Z.ones 32).
  rewrite Z.land_ones by lia.
  pose proof (Z.mod_pos_bound x (2 ^ 32) ltac:(lia)).
  change (Z.ones 32) with (2 ^ 32 - 1). lia.
Qed.

Lemma getitem_ok (l : list Z) i :
  (i < length l)%nat -> exists v, getitem l i = Ok v.
Proof.
  intros H. unfold getitem.
  destruct (nth_error l i) eqn:E; eauto.
  apply nth_error_None in E. lia.
Qed.

Lemma setitem_ok (l : list Z) i v :
  (i < length l)%nat -> setitem l i v = Ok (list_set l i v).
Proof.
  intros H. unfold setitem.
  apply Nat.ltb_lt in H. now rewrite H.
Qed.

Ltac step_ok :=
  match goal with
  | |- context [getitem ?l ?i] =>
      let v := fresh "v" in
      let E := fresh "E" in
      destruct (getitem_ok l i) as [v E]; [lia | rewrite E; cbn [bind]]
  end.

Section Rounds.
Variable X : list Z.
Hypothesis HX : length X = 16%nat.

Definition step_total (step : list Z -> row -> res (list Z)) : Prop :=
  forall state r, row_okb r = true -> length state = 4%nat ->
    exists s', step state r = Ok s' /\ length s' = 4%nat.

Ltac round_tac :=
  intros state [[[[[a1 b1] c1] d1] k1] s1] Hr Hs;
  unfold row_okb in Hr;
  repeat (apply andb_prop in Hr; destruct Hr as [Hr ?]);
  repeat match goal with
         | H : (_ <? _)%nat = true |- _ => apply Nat.ltb_lt in H
         end;
  cbv beta iota delta [round1_step round2_step round3_step];
  repeat step_ok;
  rewrite setitem_ok by lia;
  eexists; split; [reflexivity | now rewrite list_set_length].

Lemma round1_total : step_total (round1_step X).
Proof. round_tac. Qed.

Lemma round2_total : step_total (round2_step X).
Proof. round_tac. Qed.

Lemma round3_total : step_total (round3_step X).
Proof. round_tac. Qed.

Lemma for_rows_total step table state :
  step_total step -> forallb row_okb table = true ->
  length state = 4%nat ->
  exists s', for_rows step table state = Ok s' /\ length s' = 4%nat.
Proof.
  intros Hstep. revert state.
  induction table as [|r rest IH]; intros state Ht Hs; simpl.
  - eauto.
  - simpl in Ht. apply andb_prop in Ht. destruct Ht as [Hr Ht].
    destruct (Hstep state r Hr Hs) as (s1 & E1 & L1).
    rewrite E1. cbn [bind]. now apply IH.
Qed.
End Rounds.

Lemma le_words_length n b : length (le_words n b) = n.
Proof. revert b; induction n; intros; simpl; auto. Qed.

Lemma add_back_total orig state :
  length orig = 4%nat -> length state = 4%nat ->
  exists o, add_back [0; 1; 2; 3]%nat orig state = Ok o /\
            length o = 4%nat /\ Forall word32 o.
Proof.
  intros Ho Hs.
  destruct orig as [|o0 [|o1 [|o2 [|o3 [|? ?]]]]]; try discriminate.
  destruct state as [|s0 [|s1 [|s2 [|s3 [|? ?]]]]]; try discriminate.
  eexists. split; [reflexivity|]. split; [reflexivity|].
  repeat constructor; apply land_mask_word32.
Qed.

(** [_process] on a 64-byte block only replaces the registers. *)
Lemma _process_total self block :
  length block = 64%nat -> length (_state self) = 4%nat ->
  exists s', _process self block = Ok (set_state self s') /\
             length s' = 4%nat /\ Forall word32 s'.
Proof.
  intros Hb Hs. unfold _process, unpack_16I.
  apply Nat.eqb_eq in Hb. rewrite Hb. cbn [bind].
  pose proof (le_words_length 16 block) as HX.
  destruct (for_rows_total _ _round1 (_state self)
              (round1_total _ HX) eq_refl Hs) as (s1 & E1 & L1).
  rewrite E1. cbn [bind].
  destruct (for_rows_total _ _round2 s1
              (round2_total _ HX) eq_refl L1) as (s2 & E2 & L2).
  rewrite E2. cbn [bind].
  destruct (for_rows_total _ _round3 s2
              (round3_total _ HX) eq_refl L2) as (s3 & E3 & L3).
  rewrite E3. cbn [bind].
  destruct (add_back_total (_state self) s3 Hs L3) as (o & E4 & L4 & W4).
  rewrite E4. cbn [bind]. eauto.
Qed.

Lemma pack_word_ok w : word32 w ->
  exists b, pack_word w = Ok b /\ length b = 4%nat.
Proof.
  intros [H0 H1]. unfold pack_word.
  apply Z.leb_le in H0, H1. rewrite H0, H1. cbn [andb]. eauto.
Qed.

Lemma pack_words_ok ws : Forall word32 ws ->
  exists b, pack_words ws = Ok b /\ length b = (4 * length ws)%nat.
Proof.
  induction 1 as [|w t Hw Ht IH]; simpl.
  - eauto.
  - destruct (pack_word_ok w Hw) as (b & E & L).
    destruct IH as (r & Er & Lr).
    rewrite E, Er. cbn [bind]. eexists; split; [reflexivity|].
    rewrite length_app. lia.
Qed.

Lemma pack_I_ok n ws : length ws = n -> Forall word32 ws ->
  exists b, pack_I n ws = Ok b /\ length b = (4 * n)%nat.
Proof.
  intros Hn Hw. unfold pack_I.
  apply Nat.eqb_eq in Hn. rewrite Hn. apply Nat.eqb_eq in Hn. subst n.
  now apply pack_words_ok.
Qed.


Lemma slice_length {A} (l : list A) i j :
  (i <= j)%nat -> (j <= length l)%nat -> length (slice l i j) = (j - i)%nat.
Proof.
  intros Hij Hj. unfold slice.
  rewrite length_firstn, length_skipn. lia.
Qed.

(** The loop of [update] ends within its budget, and leaves fewer than
    64 bytes pending. *)
Lemma update_loop_total fuel : forall self content idx,
  length (_state self) = 4%nat -> Forall word32 (_state self) ->
  (idx <= length content)%nat -> (length content < idx + 64 * fuel)%nat ->
  exists h', update_loop fuel self content idx = Ok h' /\ wf h'.
Proof.
  induction fuel as [|fuel IH]; intros self content idx Hl Hw Hi Hf.
  - lia.
  - cbn [update_loop].
    destruct (idx + 64 <=? length content)%nat eqn:E.
    + apply Nat.leb_le in E.
      destruct (_process_total self (slice content idx (idx + 64)))
        as (s' & Ep & Ls & Ws); auto.
      { rewrite slice_length; lia. }
      rewrite Ep. cbn [bind].
      apply IH; simpl; auto; lia.
    + apply Nat.leb_gt in E.
      eexists; split; [reflexivity|].
      repeat split; simpl; auto.
      rewrite length_skipn. lia.
Qed.

Lemma update_wf self content :
  wf self -> exists h', update self content = Ok h' /\ wf h'.
Proof.
  intros (Hl & Hw & Hb). unfold update.
  apply update_loop_total; auto; lia.
Qed.

Lemma wf_new content : exists h, new content = Ok h /\ wf h.
Proof.
  assert (W : wf (Build_md4 0
                  [0x67452301; 0xefcdab89; 0x98badcfe; 0x10325476] [])).
  { repeat split; simpl; try lia.
    repeat constructor; unfold MASK_32; simpl; lia. }
  unfold new. destruct content as [[|b c]|]; eauto.
  now apply update_wf.
Qed.

Lemma wf_copy self : wf self -> wf (copy self).
Proof. destruct self; auto. Qed.

(** The final block is one or two whole 64-byte blocks. *)
Lemma final_block_length (buf lenbytes : bytes) :
  (length buf < 64)%nat -> length lenbytes = 8%nat ->
  let block := buf ++ [x80]
                   ++ repeat x00 (Z.to_nat ((119 - len buf) mod 64))
                   ++ lenbytes in
  (length buf <= 55)%nat /\ length block = 64%nat \/
  (55 < length buf)%nat /\ length block = 128%nat.
Proof.
  intros Hb Hl block. subst block. unfold len.
  repeat rewrite length_app. rewrite repeat_length, Hl. simpl length.
  destruct (le_lt_dec (length buf) 55) as [Hs|Hs]; [left | right]; split; auto.
  - assert (E : (119 - Z.of_nat (length buf)) mod 64
                = 55 - Z.of_nat (length buf)).
    { symmetry. apply (Z.mod_unique _ _ 1); lia. }
    rewrite E. lia.
  - assert (E : (119 - Z.of_nat (length buf)) mod 64
                = 119 - Z.of_nat (length buf)).
    { apply Z.mod_small. lia. }
    rewrite E. lia.
Qed.

(** RFC 1320 test vectors, run through [new], [update] and [digest]. *)
Definition md4_of (s : string) : option bytes :=
  match new (Some (list_byte_of_string s)) with
  | Ok h => match digest h with Ok (out, _) => Some out | _ => None end
  | _ => None
  end.

Example md4_empty :
  md4_of "" = Some [x31; xd6; xcf; xe0; xd1; x6a; xe9; x31;
                    xb7; x3c; x59; xd7; xe0; xc0; x89; xc0].
Proof. vm_compute. reflexivity. Qed.

Example md4_abc :
  md4_of "abc" = Some [xa4; x48; x01; x7a; xaf; x21; xd8; x52;
                       x5f; xc1; x0a; xe8; x7a; xa6; x72; x9d].
Proof. vm_compute. reflexivity. Qed.

Example md4_two_blocks :
  md4_of "12345678901234567890123456789012345678901234567890123456789012345678901234567890"
  = Some [xe3; x3b; x4d; xdc; x9c; x38; xf2; x19;
          x9c; x3e; x7b; x16; x4f; xcc; x05; x36].
Proof. vm_compute. reflexivity. Qed.

(** C10. [digest] is non-destructive: on every [md4] object (one that
    satisfies the class invariant [wf]) it returns sixteen bytes and
    leaves [_count], [_state] and [_buf] exactly as they were; hence a
    second [digest] returns the same bytes, and [update] followed by
    [digest] gives the same result whether or not a [digest] came
    first. *)
Theorem digest_preserves_state (h : md4) (H : wf h) :
  exists out,
    digest h = Ok (out, h) /\ length out = 16%nat /\
    (r <- digest h ;; digest (snd r)) = Ok (out, h) /\
    forall s, (r <- digest h ;; h1 <- update (snd r) s ;; digest h1)
              = (h1 <- update h s ;; digest h1).
Proof.
  destruct H as (Hl & Hw & Hb).
  assert (D : exists out, digest h = Ok (out, h) /\ length out = 16%nat).
  { unfold digest.
    destruct (pack_I_ok 2
                [Z.land (_count h * 512 + len (_buf h) * 8) MASK_32;
                 Z.land (Z.shiftr (_count h * 512 + len (_buf h) * 8) 32) MASK_32])
      as (lb & El & Ll); [reflexivity | |].
    { repeat constructor; apply land_mask_word32. }
    rewrite El. cbn [bind].
    pose proof (final_block_length (_buf h) lb Hb Ll) as B. cbv zeta in B.
    set (block := _buf h ++ _) in *.
    destruct B as [[_ B]|[_ B]].
    - rewrite B. simpl Nat.eqb. cbv iota.
      destruct (_process_total h _ B Hl) as (s1 & E1 & L1 & W1).
      rewrite E1. cbn [bind].
      destruct (pack_I_ok 4 s1 L1 W1) as (out & Eo & Lo).
      simpl _state. rewrite Eo. cbn [bind].
      exists out. split; [|exact Lo]. destruct h; reflexivity.
    - rewrite B. simpl Nat.eqb. cbv iota.
      destruct (_process_total h (firstn 64 block)) as (s1 & E1 & L1 & W1); auto.
      { rewrite length_firstn, B. reflexivity. }
      rewrite E1. cbn [bind].
      destruct (_process_total (set_state h s1) (skipn 64 block))
        as (s2 & E2 & L2 & W2); auto.
      { rewrite length_skipn, B. reflexivity. }
      rewrite E2. cbn [bind].
      destruct (pack_I_ok 4 s2 L2 W2) as (out & Eo & Lo).
      simpl _state. rewrite Eo. cbn [bind].
      exists out. split; [|exact Lo]. destruct h; reflexivity. }
  destruct D as (out & D & L).
  exists out. repeat split; auto.
  - rewrite D. cbn [bind snd]. exact D.
  - intros s. rewrite D. reflexivity.
Qed.

(** The theorem at the object [md4(b"abc")]. *)
Definition h_abc : md4 :=
  Build_md4 0 [0x67452301; 0xefcdab89; 0x98badcfe; 0x10325476]
            [x61; x62; x63].

Lemma digest_preserves_state_witness :
  new (Some [x61; x62; x63]) = Ok h_abc /\
  exists out,
    digest h_abc = Ok (out, h_abc) /\ length out = 16%nat /\
    (r <- digest h_abc ;; digest (snd r)) = Ok (out, h_abc) /\
    forall s, (r <- digest h_abc ;; h1 <- update (snd r) s ;; digest h1)
              = (h1 <- update h_abc s ;; digest h1).
Proof.
  split; [reflexivity|].
  apply (digest_preserves_state h_abc).
  unfold wf, h_abc; simpl.
  split; [reflexivity|]. split; [|lia].
  repeat constructor; unfold MASK_32; simpl; lia.
Defined.

(** ** More on [update]: blocks, accounting and composition *)

(** [n] whole blocks of [data] processed in order, the rest left
    pending: what the loop of [update] does, by the number of blocks. *)
Fixpoint blocks_run (n : nat) (self : md4) (data : bytes) : res md4 :=
  match n with
  | O => Ok (set_buf self data)
  | S n' =>
      self <- _process self (firstn 64 data) ;;
      blocks_run n' (set_count self (_count self + 1)) (skipn 64 data)
  end.

Lemma update_loop_blocks fuel : forall self content idx,
  (idx <= length content)%nat ->
  ((length content - idx) / 64 < fuel)%nat ->
  update_loop fuel self content idx
  = blocks_run ((length content - idx) / 64) self (skipn idx content).
Proof.
  induction fuel as [|fuel IH]; intros self content idx Hi Hf; [lia|].
  cbn [update_loop].
  destruct (idx + 64 <=? length content)%nat eqn:E.
  - apply Nat.leb_le in E.
    assert (Hq : ((length content - idx) / 64
                  = S ((length content - (idx + 64)) / 64))%nat).
    { replace (length content - idx)%nat
        with (1 * 64 + (length content - (idx + 64)))%nat by lia.
      now rewrite Nat.div_add_l by lia. }
    rewrite Hq. cbn [blocks_run].
    unfold slice. replace (idx + 64 - idx)%nat with 64%nat by lia.
    destruct (_process self (firstn 64 (skipn idx content))) as [s|e|];
      cbn [bind]; auto.
    rewrite IH by lia.
    rewrite skipn_skipn. now rewrite (Nat.add_comm 64 idx).
  - apply Nat.leb_gt in E.
    rewrite Nat.div_small by lia. reflexivity.
Qed.

Lemma buf_content (buf content : bytes) :
  match buf with [] => content | _ => buf ++ content end = buf ++ content.
Proof. now destruct buf. Qed.

(** [update] processes the whole blocks of [_buf + content]. *)
Lemma update_blocks self content :
  update self content
  = blocks_run (length (_buf self ++ content) / 64) self
               (_buf self ++ content).
Proof.
  unfold update. rewrite buf_content.
  rewrite update_loop_blocks.
  - now rewrite Nat.sub_0_r.
  - lia.
  - rewrite Nat.sub_0_r.
    pose proof (Nat.Div0.div_le_upper_bound
                  (length (_buf self ++ content)) 64
                  (length (_buf self ++ content))).
    apply Nat.lt_succ_r. apply Nat.Div0.div_le_upper_bound. lia.
Qed.

Lemma _process_set_buf self x block :
  _process (set_buf self x) block
  = (h <- _process self block ;; Ok (set_buf h x)).
Proof.
  unfold _process. simpl _state.
  destruct (unpack_16I block) as [X|e|]; cbn [bind]; auto.
  destruct (for_rows (round1_step X) _round1 (_state self)) as [s1|e|];
    cbn [bind]; auto.
  destruct (for_rows (round2_step X) _round2 s1) as [s2|e|]; cbn [bind]; auto.
  destruct (for_rows (round3_step X) _round3 s2) as [s3|e|]; cbn [bind]; auto.
  destruct (add_back [0; 1; 2; 3]%nat (_state self) s3) as [o|e|];
    cbn [bind]; auto.
Qed.

Lemma blocks_run_set_buf n : forall self x data,
  blocks_run n (set_buf self x) data = blocks_run n self data.
Proof.
  induction n as [|n IH]; intros self x data; cbn [blocks_run]; auto.
  rewrite _process_set_buf.
  destruct (_process self (firstn 64 data)) as [h|e|]; cbn [bind]; auto.
  apply (IH (set_count h (_count h + 1)) x).
Qed.

Lemma blocks_run_app n1 : forall n2 self data more,
  (64 * n1 <= length data)%nat ->
  blocks_run (n1 + n2) self (data ++ more)
  = (h <- blocks_run n1 self data ;; blocks_run n2 h (_buf h ++ more)).
Proof.
  induction n1 as [|n1 IH]; intros n2 self data more Hl.
  - cbn [blocks_run bind Nat.add]. simpl _buf.
    now rewrite blocks_run_set_buf.
  - cbn [blocks_run Nat.add].
    rewrite firstn_app, skipn_app.
    replace (64 - length data)%nat with 0%nat by lia.
    rewrite firstn_O, skipn_O, app_nil_r.
    destruct (_process self (firstn 64 data)) as [h|e|]; cbn [bind]; auto.
    apply IH. rewrite length_skipn. lia.
Qed.

(** What a run of [n] blocks leaves in [_count] and [_buf]. *)
Lemma blocks_run_accounting n : forall self data h,
  blocks_run n self data = Ok h ->
  _count h = _count self + Z.of_nat n /\ _buf h = skipn (64 * n) data.
Proof.
  induction n as [|n IH]; intros self data h H; cbn [blocks_run] in H.
  - injection H as <-. simpl. split; [lia | reflexivity].
  - destruct (_process self (firstn 64 data)) as [s|e|] eqn:Ep;
      cbn [bind] in H; try discriminate.
    apply IH in H as [Hc Hb]. simpl in Hc.
    assert (Hs : _count s = _count self).
    { unfold _process in Ep.
      destruct (unpack_16I _) as [X|?|]; cbn [bind] in Ep; try discriminate.
      destruct (for_rows (round1_step X) _ _) as [s1|?|];
        cbn [bind] in Ep; try discriminate.
      destruct (for_rows (round2_step X) _ _) as [s2|?|];
        cbn [bind] in Ep; try discriminate.
      destruct (for_rows (round3_step X) _ _) as [s3|?|];
        cbn [bind] in Ep; try discriminate.
      destruct (add_back _ _ _) as [o|?|]; cbn [bind] in Ep; try discriminate.
      now injection Ep as <-. }
    split; [lia|].
    rewrite Hb, skipn_skipn. f_equal. lia.
Qed.

(** X1. Feeding [a] and then [b] is feeding [a ++ b]: [update] composes,
    on every object and with the same exception when a block is
    refused. *)
Theorem update_concat (h : md4) (a b : bytes) :
  update h (a ++ b) = (h1 <- update h a ;; update h1 b).
Proof.
  rewrite (update_blocks h (a ++ b)), (update_blocks h a).
  set (D := _buf h ++ a).
  set (n1 := (length D / 64)%nat).
  assert (Hq : (length (_buf h ++ a ++ b) / 64
                = n1 + (length D mod 64 + length b) / 64)%nat).
  { rewrite app_assoc, length_app. fold D.
    rewrite (Nat.div_mod_eq (length D) 64) at 1. fold n1.
    rewrite <- Nat.add_assoc, (Nat.mul_comm 64 n1).
    now rewrite Nat.div_add_l by lia. }
  rewrite Hq, app_assoc. fold D.
  rewrite blocks_run_app
    by (subst n1; pose proof (Nat.Div0.mul_div_le (length D) 64); lia).
  destruct (blocks_run n1 h D) as [h1|e|] eqn:E1; cbn [bind]; auto.
  rewrite (update_blocks h1 b).
  destruct (blocks_run_accounting _ _ _ _ E1) as [_ Hb].
  rewrite length_app, Hb, length_skipn.
  replace (length D - 64 * n1)%nat with (length D mod 64)%nat; auto.
  subst n1. pose proof (Nat.div_mod_eq (length D) 64). lia.
Qed.

(** X2. On an object that satisfies the class invariant, [update]
    returns (it raises nothing) and keeps the invariant; [_count] grows
    by the number of whole 64-byte blocks in [_buf + content], [_buf]
    becomes the bytes after them, so that [64 * _count + len(_buf)]
    has grown by exactly [len(content)]. *)
Theorem update_accounting (h : md4) (content : bytes) (H : wf h) :
  exists h',
    update h content = Ok h' /\ wf h' /\
    _count h' = _count h + (len (_buf h) + len content) / 64 /\
    _buf h' = skipn (64 * (length (_buf h ++ content) / 64))
                    (_buf h ++ content) /\
    64 * _count h' + len (_buf h')
    = 64 * _count h + len (_buf h) + len content.
Proof.
  destruct (update_wf h content H) as (h' & E & W).
  exists h'. split; [exact E|]. split; [exact W|].
  rewrite update_blocks in E.
  destruct (blocks_run_accounting _ _ _ _ E) as [Hc Hb].
  assert (Hd : Z.of_nat (length (_buf h ++ content) / 64)
               = (len (_buf h) + len content) / 64).
  { unfold len. rewrite length_app, Nat2Z.inj_div, Nat2Z.inj_add.
    reflexivity. }
  split; [now rewrite Hc, Hd|]. split; [exact Hb|].
  rewrite Hc, Hb. unfold len. rewrite length_skipn, length_app.
  pose proof (Nat.div_mod_eq (length (_buf h) + length content) 64).
  pose proof (Nat.Div0.mul_div_le (length (_buf h) + length content) 64).
  lia.
Qed.

Lemma update_accounting_witness :
  exists h',
    update h_abc (repeat x61 70) = Ok h' /\
    _count h' = 1 /\ length (_buf h') = 9%nat.
Proof.
  destruct (update_accounting h_abc (repeat x61 70)) as (h' & E & _ & Hc & Hb & _).
  { unfold wf, h_abc; simpl.
    split; [reflexivity|]. split; [|lia].
    repeat constructor; unfold MASK_32; simpl; lia. }
  exists h'. split; [exact E|]. split.
  - rewrite Hc. reflexivity.
  - rewrite Hb. reflexivity.
Defined.

(** ** The rotation of [_process] *)





End MD4.

(* ================================================================== *)
(** * ldaptor/protocols/ldap/ldapclient.py *)
(* ================================================================== *)

Module LDAP.

(** ** What the client reads of [pureldap]'s objects

    Byte strings that the client only passes around (names, OIDs,
    diagnostic messages) are [string]s; the receive buffer is [bytes]. *)

Definition Control : Type := (string * option bool * option string)%type.

Record LDAPResult : Type := Build_LDAPResult {
  resultCode : Z;
  matchedDN : string;
  errorMessage : string;
  referral : option (list string)
}.

Inductive LDAPProtocolRequest : Type :=
| LDAPBindRequest (dn auth : string)
| LDAPUnbindRequest
| LDAPStartTLSRequest
| LDAPOtherRequest (answered : bool) (body : string).

(** The class attribute [needs_answer] of a request. *)
Definition needs_answer (op : LDAPProtocolRequest) : bool :=
  match op with
  | LDAPUnbindRequest => false
  | LDAPOtherRequest answered _ => answered
  | _ => true
  end.

Inductive LDAPProtocolResponse : Type :=
| LDAPBindResponse (r : LDAPResult) (serverSaslCreds : option string)
| LDAPExtendedResponse (r : LDAPResult) (responseName : option string)
                       (response : option string)
| LDAPSearchResultEntry (objectName : string)
| LDAPSearchResultDone (r : LDAPResult)
| LDAPOtherResponse (body : string).

Inductive ProtocolOp : Type :=
| Request (op : LDAPProtocolRequest)
| Response (r : LDAPProtocolResponse).

(** [isinstance(v, pureldap.LDAPProtocolResponse)]. *)
Definition is_LDAPProtocolResponse (v : ProtocolOp) : bool :=
  match v with
  | Response _ => true
  | Request _ => false
  end.

Record LDAPMessage : Type := Build_LDAPMessage {
  id : Z;
  value : ProtocolOp;
  controls : option (list Control)
}.

(** Values handed to handlers and to Deferreds. *)
Inductive PyVal : Type :=
| VNone
| VOp (v : ProtocolOp)
| VControls (c : option (list Control))
| VPair (a b : PyVal)
| VInt (z : Z)
| VStr (s : string)
| VSelf.

(** [pureldap.LDAPStartTLSResponse.oid] and [ldaperrors.Success.resultCode]. *)
Definition LDAPStartTLSResponse_oid : string := "1.3.6.1.4.1.1466.20037".
Definition Success_resultCode : Z := 0.

(** What [pureber.berDecodeObject] answers on a buffer: an object (or
    [None]) with the number of bytes used, or an exception. *)
Inductive decoded : Type :=
| Decoded (o : option LDAPMessage) (used : nat)
| BERExceptionInsufficientData
| BERException (what : string).

(** A Deferred is identified by its allocation number; a failure reason
    and a TLS context are opaque. *)
Definition Deferred : Type := nat.
Definition Reason : Type := string.
Definition Ctx : Type := string.

(** The positional and keyword arguments stored with a handler: [None],
    a list (as [send] stores [[]]) or a tuple (as [*args] gives). *)
Inductive Args : Type :=
| ArgsNone
| ArgsList (l : list PyVal)
| ArgsTuple (l : list PyVal).

Definition Kwargs : Type := option (list (string * PyVal)).

Section Client.

(** The memory that handlers read and write, and the BER decoder the
    class attribute [berdecoder] selects; both come from outside this
    file. *)
Context {Heap : Type}.
Variable berDecodeObject : bytes -> decoded.

(** A handler is a callable: positional arguments, keyword arguments,
    and its effect on the heap; it answers whether the response was the
    final one. *)
Definition Handler : Type :=
  list PyVal -> list (string * PyVal) -> Heap -> bool * Heap.

(** An entry [(d, return_controls, handler, args, kwargs)] of [onwire]. *)
Definition Entry : Type :=
  (Deferred * bool * option Handler * Args * Kwargs)%type.

(** [self.onwire]: a dict in insertion order, the newest item first. *)
Definition Onwire : Type := list (Z * Entry).

Inductive Exn : Type :=
| AssertionError
| KeyError (k : Z)
| LDAPClientConnectionLostException
| LDAPStartTLSBusyError (onwire : Onwire)
| LDAPStartTLSInvalidResponseName (responseName : string)
| ldaperrors_get (resultCode : Z) (errorMessage : string)
| Exception (message : string)
| BERError (what : string).

Inductive Callback : Type :=
| cb_handle_bind_msg
| cb_cbStartTLS (ctx : Ctx)
| cb_startTLS.

(** Calls the client makes on its collaborators, in order. *)
Inductive Event : Type :=
| callback (d : Deferred) (result : PyVal)
| errback (d : Deferred) (reason : Reason)
| addCallback (d : Deferred) (cb : Callback)
| callLater (d : Deferred) (ctx : Ctx)
| handler_called (args : list PyVal) (kwargs : list (string * PyVal))
                 (final : bool)
| log_unsolicited (v : ProtocolOp)
| transport_write (m : LDAPMessage)
| transport_startTLS (ctx : Ctx)
| transport_loseConnection.

(** The client's attributes [onwire], [buffer] and [connected], with the
    surroundings it acts on: the handlers' heap, the Deferred allocator
    and the record of calls made. The class defaults [debug = False]
    and [is_logging_insecure = False] are kept, so the tracing
    [log.msg] calls are not taken. *)
Record State : Type := Build_State {
  onwire : Onwire;
  buffer : bytes;
  connected : option Z;
  heap : Heap;
  fresh : Deferred;
  events : list Event
}.

Definition set_onwire (o : Onwire) (st : State) : State :=
  Build_State o (buffer st) (connected st) (heap st) (fresh st) (events st).
Definition set_buffer (b : bytes) (st : State) : State :=
  Build_State (onwire st) b (connected st) (heap st) (fresh st) (events st).
Definition set_connected (c : option Z) (st : State) : State :=
  Build_State (onwire st) (buffer st) c (heap st) (fresh st) (events st).
Definition set_heap (h : Heap) (st : State) : State :=
  Build_State (onwire st) (buffer st) (connected st) h (fresh st) (events st).
Definition set_fresh (n : Deferred) (st : State) : State :=
  Build_State (onwire st) (buffer st) (connected st) (heap st) n (events st).
Definition emit (e : Event) (st : State) : State :=
  Build_State (onwire st) (buffer st) (connected st) (heap st) (fresh st)
              (events st ++ [e]).

(** [LDAPClient.__init__]. *)
Definition __init__ (h : Heap) : State :=
  Build_State [] [] None h 0%nat [].

(** *** Dict operations on [onwire] *)

Fixpoint dict_get (k : Z) (d : Onwire) : option Entry :=
  match d with
  | [] => None
  | (k', v) :: rest => if k =? k' then Some v else dict_get k rest
  end.

Definition dict_in (k : Z) (d : Onwire) : bool :=
  match dict_get k d with Some _ => true | None => false end.

Fixpoint dict_replace (k : Z) (v : Entry) (d : Onwire) : Onwire :=
  match d with
  | [] => []
  | (k', v') :: rest =>
      if k =? k' then (k', v) :: dict_replace k v rest
      else (k', v') :: dict_replace k v rest
  end.

(** [d[k] = v]: a new key becomes the newest item, an existing key keeps
    its place. *)
Definition dict_set (k : Z) (v : Entry) (d : Onwire) : Onwire :=
  if dict_in k d then dict_replace k v d else (k, v) :: d.

Fixpoint dict_del (k : Z) (d : Onwire) : Onwire :=
  match d with
  | [] => []
  | (k', v) :: rest =>
      if k =? k' then dict_del k rest else (k', v) :: dict_del k rest
  end.

(** *** Computations on the client: state passing with exceptions *)

Definition M (A : Type) : Type := State -> outcome (Exn * State) (A * State).

Definition ret {A} (a : A) : M A := fun st => Ok (a, st).
Definition raise {A} (e : Exn) : M A := fun st => Raise (e, st).
Definition bindM {A B} (m : M A) (k : A -> M B) : M B :=
  fun st => match m st with
            | Ok (a, st') => k a st'
            | Raise r => Raise r
            | OutOfFuel => OutOfFuel
            end.
Definition gets {A} (f : State -> A) : M A := fun st => Ok (f st, st).
Definition modify (f : State -> State) : M unit := fun st => Ok (tt, f st).

Declare Scope ldap_scope.
Delimit Scope ldap_scope with ldap.
Notation "x <- m ;; k" := (bindM m (fun x => k))
  (at level 61, m at next level, right associativity) : ldap_scope.
Notation "m ;;; k" := (bindM m (fun _ => k))
  (at level 61, right associativity) : ldap_scope.
Local Open Scope ldap_scope.

Definition assert_ (b : bool) : M unit :=
  if b then ret tt else raise AssertionError.

(** Python's truth value of [self.connected] ([None], [0] or [1]). *)
Definition truthy (c : option Z) : bool :=
  match c with
  | None => false
  | Some z => negb (z =? 0)
  end.

(** [self.onwire[k]] and [del self.onwire[k]]. *)
Definition onwire_getitem (k : Z) : M Entry :=
  fun st => match dict_get k (onwire st) with
            | Some e => Ok (e, st)
            | None => Raise (KeyError k, st)
            end.

Definition onwire_delitem (k : Z) : M unit :=
  fun st => if dict_in k (onwire st)
            then Ok (tt, set_onwire (dict_del k (onwire st)) st)
            else Raise (KeyError k, st).

(** [defer.Deferred()]. *)
Definition new_Deferred : M Deferred :=
  fun st => Ok (fresh st, set_fresh (S (fresh st)) st).

(** Calling a handler: its effect on the heap, recorded with its
    arguments and answer. *)
Definition call_handler (h : Handler) (args : list PyVal)
           (kwargs : list (string * PyVal)) : M bool :=
  fun st => let '(final, hp) := h args kwargs (heap st) in
            Ok (final, emit (handler_called args kwargs final) (set_heap hp st)).

Definition args_items (a : Args) : list PyVal :=
  match a with
  | ArgsNone => []
  | ArgsList l | ArgsTuple l => l
  end.

Definition kwargs_items (k : Kwargs) : list (string * PyVal) :=
  match k with
  | None => []
  | Some l => l
  end.

(** [(args is None) or (args == ())]: a list never equals a tuple. *)
Definition args_none_or_empty (a : Args) : bool :=
  match a with
  | ArgsNone | ArgsTuple [] => true
  | _ => false
  end.

(** [(kwargs is None) or (kwargs == {})]. *)
Definition kwargs_none_or_empty (k : Kwargs) : bool :=
  match k with
  | None | Some [] => true
  | _ => false
  end.

Definition args_not_none (a : Args) : bool :=
  match a with ArgsNone => false | _ => true end.

Definition kwargs_not_none (k : Kwargs) : bool :=
  match k with None => false | Some _ => true end.

(** *** The methods of [LDAPClient] *)

Definition unsolicitedNotification (v : ProtocolOp) : M unit :=
  modify (emit (log_unsolicited v)).

Definition handle (msg : LDAPMessage) : M unit :=
  assert_ (is_LDAPProtocolResponse (value msg)) ;;;
  if id msg =? 0 then
    unsolicitedNotification (value msg)
  else
    e <- onwire_getitem (id msg) ;;
    let '(d, return_controls, handler, args, kwargs) := e in
    match handler with
    | None =>
        assert_ (args_none_or_empty args) ;;;
        assert_ (kwargs_none_or_empty kwargs) ;;;
        (if return_controls then
           modify (emit (callback d (VPair (VOp (value msg))
                                            (VControls (controls msg)))))
         else
           modify (emit (callback d (VOp (value msg))))) ;;;
        onwire_delitem (id msg)
    | Some h =>
        assert_ (args_not_none args) ;;;
        assert_ (kwargs_not_none kwargs) ;;;
        if return_controls then
          final <- call_handler h
                     ([VOp (value msg); VControls (controls msg)]
                        ++ args_items args) (kwargs_items kwargs) ;;
          if final then
            onwire_delitem (id msg) ;;;
            modify (emit (callback d VNone))
          else ret tt
        else
          final <- call_handler h
                     ([VOp (value msg)] ++ args_items args)
                     (kwargs_items kwargs) ;;
          if final then
            onwire_delitem (id msg) ;;;
            modify (emit (callback d VNone))
          else ret tt
    end.

(** [try: ... except pureber.BERExceptionInsufficientData: o, bytes = None, 0];
    any other exception of the decoder propagates. *)
Definition try_berDecodeObject (b : bytes)
  : (option LDAPMessage * nat) + string :=
  match berDecodeObject b with
  | Decoded o used => inl (o, used)
  | BERExceptionInsufficientData => inl (None, 0%nat)
  | BERException what => inr what
  end.

(** The [while 1] loop of [dataReceived]. Beside the outcome it lists
    the objects it passed to [handle], in order. *)
Fixpoint dataReceived_loop (fuel : nat) (st : State)
  : list LDAPMessage * outcome (Exn * State) (unit * State) :=
  match fuel with
  | O => ([], OutOfFuel)
  | S fuel' =>
      match try_berDecodeObject (buffer st) with
      | inr what => ([], Raise (BERError what, st))
      | inl (o, used) =>
          let st := set_buffer (skipn used (buffer st)) st in
          match o with
          | None => ([], Ok (tt, st))
          | Some o =>
              match handle o st with
              | Ok (_, st') =>
                  let '(ms, r) := dataReceived_loop fuel' st' in (o :: ms, r)
              | Raise r => ([o], Raise r)
              | OutOfFuel => ([o], OutOfFuel)
              end
          end
      end
  end.

Definition dataReceived (recd : bytes) (st : State)
  : list LDAPMessage * outcome (Exn * State) (unit * State) :=
  let st := set_buffer (buffer st ++ recd) st in
  dataReceived_loop (S (length (buffer st))) st.

Definition connectionMade : M unit :=
  modify (set_connected (Some 1)).

(** [v[0]] of an entry. *)
Definition item0 (v : Entry) : Deferred :=
  let '(d, _, _, _, _) := v in d.

(** The [while self.onwire] loop of [connectionLost]: [popitem] takes
    the newest item off the dict. *)
Fixpoint connectionLost_loop (items : Onwire) (reason : Reason) (st : State)
  : State :=
  match items with
  | [] => st
  | (k, v) :: rest =>
      let st := set_onwire rest st in
      let d := item0 v in
      connectionLost_loop rest reason (emit (errback d reason) st)
  end.

Definition connectionLost (reason : Reason) : M unit :=
  fun st =>
    let st := set_connected (Some 0) st in
    Ok (tt, connectionLost_loop (onwire st) reason st).

(** [mid] is the id that [pureldap.LDAPMessage] draws for the new
    message. *)
Definition _send (mid : Z) (op : LDAPProtocolRequest)
           (controls : option (list Control)) : M LDAPMessage :=
  c <- gets connected ;;
  if negb (truthy c) then raise LDAPClientConnectionLostException
  else
    let msg := Build_LDAPMessage mid (Request op) controls in
    o <- gets onwire ;;
    assert_ (negb (dict_in (id msg) o)) ;;;
    ret msg.

Definition register (k : Z) (e : Entry) : M unit :=
  modify (fun st => set_onwire (dict_set k e (onwire st)) st).

Definition send (mid : Z) (op : LDAPProtocolRequest)
           (controls : option (list Control)) (handler : option Handler)
           (return_controls : bool) : M Deferred :=
  msg <- _send mid op controls ;;
  assert_ (needs_answer op) ;;;
  d <- new_Deferred ;;
  match handler with
  | Some h => register (id msg) (d, return_controls, Some h, ArgsList [], Some [])
  | None => register (id msg) (d, return_controls, None, ArgsNone, None)
  end ;;;
  modify (emit (transport_write msg)) ;;;
  ret d.

Definition send_multiResponse (mid : Z) (op : LDAPProtocolRequest)
           (handler : option Handler) (args : list PyVal)
           (kwargs : list (string * PyVal)) : M Deferred :=
  msg <- _send mid op None ;;
  assert_ (needs_answer op) ;;;
  d <- new_Deferred ;;
  register (id msg) (d, false, handler, ArgsTuple args, Some kwargs) ;;;
  modify (emit (transport_write msg)) ;;;
  ret d.

Definition send_multiResponse_ex (mid : Z) (op : LDAPProtocolRequest)
           (controls : option (list Control)) (handler : option Handler)
           (args : list PyVal) (kwargs : list (string * PyVal)) : M Deferred :=
  msg <- _send mid op controls ;;
  assert_ (needs_answer op) ;;;
  d <- new_Deferred ;;
  register (id msg) (d, true, handler, ArgsTuple args, Some kwargs) ;;;
  modify (emit (transport_write msg)) ;;;
  ret d.

Definition send_noResponse (mid : Z) (op : LDAPProtocolRequest)
           (controls : option (list Control)) : M unit :=
  msg <- _send mid op controls ;;
  assert_ (negb (needs_answer op)) ;;;
  modify (emit (transport_write msg)).

Definition bind (mid : Z) (dn auth : string) : M Deferred :=
  c <- gets connected ;;
  if negb (truthy c) then raise LDAPClientConnectionLostException
  else
    let r := LDAPBindRequest dn auth in
    d <- send mid r None None false ;;
    modify (emit (addCallback d cb_handle_bind_msg)) ;;;
    ret d.

(** The callbacks the client chains on its Deferreds take the
    Deferred's result and return a value or raise. *)
Definition _handle_bind_msg (msg : PyVal) : outcome Exn PyVal :=
  match msg with
  | VOp (Response (LDAPBindResponse r serverSaslCreds)) =>
      match referral r with
      | Some _ => Raise AssertionError
      | None =>
          if negb (resultCode r =? Success_resultCode) then
            Raise (ldaperrors_get (resultCode r) (errorMessage r))
          else
            Ok (VPair (VStr (matchedDN r))
                       match serverSaslCreds with
                       | Some c => VStr c
                       | None => VNone
                       end)
      end
  | _ => Raise AssertionError
  end.

Definition unbind (mid : Z) : M unit :=
  c <- gets connected ;;
  if negb (truthy c) then raise (Exception "Not connected (TODO)")
  else
    let r := LDAPUnbindRequest in
    send_noResponse mid r None ;;;
    modify (emit transport_loseConnection).

Definition string_neqb (a b : string) : bool := negb (String.eqb a b).

Definition _cbStartTLS (msg : PyVal) (ctx : Ctx) : M PyVal :=
  match msg with
  | VOp (Response (LDAPExtendedResponse r responseName response)) =>
      assert_ (match referral r with None => true | Some _ => false end) ;;;
      if negb (resultCode r =? Success_resultCode) then
        raise (ldaperrors_get (resultCode r) (errorMessage r))
      else
        match responseName with
        | Some name =>
            if string_neqb name LDAPStartTLSResponse_oid then
              raise (LDAPStartTLSInvalidResponseName name)
            else
              modify (emit (transport_startTLS ctx)) ;;; ret VSelf
        | None =>
            modify (emit (transport_startTLS ctx)) ;;; ret VSelf
        end
  | _ => raise AssertionError
  end.

Definition ssl_ClientContextFactory : Ctx := "ssl.ClientContextFactory()"%string.

Definition startTLS (ctx : option Ctx) : M Deferred :=
  let ctx := match ctx with None => ssl_ClientContextFactory | Some c => c end in
  d <- new_Deferred ;;
  modify (emit (addCallback d cb_startTLS)) ;;;
  modify (emit (callLater d ctx)) ;;;
  ret d.

Definition _startTLS (mid : Z) (ctx : Ctx) : M Deferred :=
  c <- gets connected ;;
  if negb (truthy c) then raise LDAPClientConnectionLostException
  else
    o <- gets onwire ;;
    match o with
    | _ :: _ => raise (LDAPStartTLSBusyError o)
    | [] =>
        let op := LDAPStartTLSRequest in
        d <- send mid op None None false ;;
        modify (emit (addCallback d (cb_cbStartTLS ctx))) ;;;
        ret d
    end.

(** ** The states a client can be in

    A client starts from [__init__]; afterwards its methods are called,
    by the application, by the transport ([connectionMade],
    [dataReceived], [connectionLost]) and by the reactor and the
    Deferreds ([_startTLS], [_cbStartTLS]). *)

Inductive Call : Type :=
| call_connectionMade
| call_connectionLost (reason : Reason)
| call_dataReceived (recd : bytes)
| call_handle (msg : LDAPMessage)
| call_send (mid : Z) (op : LDAPProtocolRequest)
            (controls : option (list Control)) (handler : option Handler)
            (return_controls : bool)
| call_send_multiResponse (mid : Z) (op : LDAPProtocolRequest)
            (handler : option Handler) (args : list PyVal)
            (kwargs : list (string * PyVal))
| call_send_multiResponse_ex (mid : Z) (op : LDAPProtocolRequest)
            (controls : option (list Control)) (handler : option Handler)
            (args : list PyVal) (kwargs : list (string * PyVal))
| call_send_noResponse (mid : Z) (op : LDAPProtocolRequest)
            (controls : option (list Control))
| call_bind (mid : Z) (dn auth : string)
| call_unbind (mid : Z)
| call_startTLS (ctx : option Ctx)
| call__startTLS (mid : Z) (ctx : Ctx)
| call__cbStartTLS (msg : PyVal) (ctx : Ctx).

(** The state a call leaves behind, whether it returned or raised. *)
Definition state_after {A} (r : outcome (Exn * State) (A * State))
  : option State :=
  match r with
  | Ok (_, st) => Some st
  | Raise (_, st) => Some st
  | OutOfFuel => None
  end.

Definition run (c : Call) (st : State) : option State :=
  match c with
  | call_connectionMade => state_after (connectionMade st)
  | call_connectionLost reason => state_after (connectionLost reason st)
  | call_dataReceived recd => state_after (snd (dataReceived recd st))
  | call_handle msg => state_after (handle msg st)
  | call_send mid op c h rc => state_after (send mid op c h rc st)
  | call_send_multiResponse mid op h a k =>
      state_after (send_multiResponse mid op h a k st)
  | call_send_multiResponse_ex mid op c h a k =>
      state_after (send_multiResponse_ex mid op c h a k st)
  | call_send_noResponse mid op c => state_after (send_noResponse mid op c st)
  | call_bind mid dn auth => state_after (bind mid dn auth st)
  | call_unbind mid => state_after (unbind mid st)
  | call_startTLS ctx => state_after (startTLS ctx st)
  | call__startTLS mid ctx => state_after (_startTLS mid ctx st)
  | call__cbStartTLS msg ctx => state_after (_cbStartTLS msg ctx st)
  end.

Inductive reachable : State -> Prop :=
| reach_init (h : Heap) : reachable (__init__ h)
| reach_call (c : Call) (st st' : State) :
    reachable st -> run c st = Some st' -> reachable st'.

(** The Deferreds that have been fired, in order. *)
Fixpoint fired (evs : list Event) : list Deferred :=
  match evs with
  | [] => []
  | callback d _ :: rest => d :: fired rest
  | errback d _ :: rest => d :: fired rest
  | _ :: rest => fired rest
  end.

(** The Deferreds waiting in the table. *)
Definition waiting (o : Onwire) : list Deferred :=
  map (fun kv => item0 (snd kv)) o.

(** What holds of the table, the connection flag, the Deferred
    allocator and the record of calls in every reachable state. *)
Record InvF (o : Onwire) (c : option Z) (f : Deferred) (evs : list Event)
  : Prop := Build_InvF {
  inv_connected : o <> [] -> truthy c = true;
  inv_keys : NoDup (map fst o);
  inv_waiting : NoDup (waiting o);
  inv_waiting_fresh : forall d, In d (waiting o) -> (d < f)%nat;
  inv_fired_fresh : forall d, In d (fired evs) -> (d < f)%nat;
  inv_fired_gone : forall d, In d (fired evs) -> ~ In d (waiting o);
  inv_fired_once : NoDup (fired evs)
}.

Definition Inv (st : State) : Prop :=
  InvF (onwire st) (connected st) (fresh st) (events st).

(** ** Frames on the wire, as the decoder sees them

    [f] is a complete frame of [m] when the decoder cuts exactly [f],
    as [m], off the front of any buffer that starts with [f], and asks
    for more data (or finds no object, using no byte) on every proper
    prefix of [f]. *)

Definition stalls (p : bytes) : Prop :=
  berDecodeObject p = BERExceptionInsufficientData \/
  berDecodeObject p = Decoded None 0.

Definition is_frame (f : bytes) (m : LDAPMessage) : Prop :=
  f <> [] /\
  (forall rest, berDecodeObject (f ++ rest) = Decoded (Some m) (length f)) /\
  (forall p q, f = p ++ q -> q <> [] -> stalls p).

(** [frames buf ms]: [buf] is the frames of the messages [ms], one after
    the other. *)
Inductive frames : bytes -> list LDAPMessage -> Prop :=
| frames_nil : frames [] []
| frames_cons f m rest ms :
    is_frame f m -> frames rest ms -> frames (f ++ rest) (m :: ms).

Definition Result : Type := outcome (Exn * State) (unit * State).

(** Deliveries of [chunks], one [dataReceived] call each; an exception
    ends the deliveries. The messages passed to [handle] are listed. *)
Fixpoint feed (chunks : list bytes) (st : State) : list LDAPMessage * Result :=
  match chunks with
  | [] => ([], Ok (tt, st))
  | c :: rest =>
      let '(ms, r) := dataReceived c st in
      match r with
      | Ok (_, st') => let '(ms', r') := feed rest st' in (ms ++ ms', r')
      | _ => (ms, r)
      end
  end.

(** Dispatch of [ms] in order, up to the first exception. *)
Fixpoint handle_all (ms : list LDAPMessage) (st : State)
  : list LDAPMessage * Result :=
  match ms with
  | [] => ([], Ok (tt, st))
  | m :: rest =>
      match handle m st with
      | Ok (_, st') => let '(l, r) := handle_all rest st' in (m :: l, r)
      | Raise r => ([m], Raise r)
      | OutOfFuel => ([m], OutOfFuel)
      end
  end.

(** The same result, with [b] as the receive buffer. *)
Definition rebuffer (b : bytes) (r : Result) : Result :=
  match r with
  | Ok (u, st) => Ok (u, set_buffer b st)
  | Raise (e, st) => Raise (e, set_buffer b st)
  | OutOfFuel => OutOfFuel
  end.

(** ** Dict facts *)

Lemma dict_get_del_same k (d : Onwire) : dict_get k (dict_del k d) = None.
Proof.
  induction d as [|[k' v] rest IH]; simpl; auto.
  destruct (k =? k') eqn:E; simpl; auto. now rewrite E.
Qed.

Lemma dict_get_del_other k k' (d : Onwire) :
  k' <> k -> dict_get k' (dict_del k d) = dict_get k' d.
Proof.
  intros Hne. induction d as [|[k0 v] rest IH]; simpl; auto.
  destruct (k =? k0) eqn:E; simpl.
  - apply Z.eqb_eq in E. subst k0.
    destruct (k' =? k) eqn:E'; auto. apply Z.eqb_eq in E'. contradiction.
  - now rewrite IH.
Qed.

Lemma dict_in_get k (d : Onwire) e : dict_get k d = Some e -> dict_in k d = true.
Proof. unfold dict_in. now intros ->. Qed.

Lemma dict_get_set_new k e (d : Onwire) :
  dict_in k d = false -> dict_get k (dict_set k e d) = Some e.
Proof.
  intros H. unfold dict_set. rewrite H. simpl. now rewrite Z.eqb_refl.
Qed.

(** ** Dispatch of a response: [handle] *)

(** The payload a plain operation's Deferred is fired with. *)
Definition plain_result (return_controls : bool) (msg : LDAPMessage) : PyVal :=
  if return_controls
  then VPair (VOp (value msg)) (VControls (controls msg))
  else VOp (value msg).

(** The positional arguments a handler is called with. *)
Definition handler_args (return_controls : bool) (msg : LDAPMessage)
           (args : Args) : list PyVal :=
  (if return_controls
   then [VOp (value msg); VControls (controls msg)]
   else [VOp (value msg)]) ++ args_items args.

Ltac handle_start Hresp Hid Hget :=
  unfold handle, bindM, assert_, onwire_getitem;
  rewrite Hresp; cbn [ret];
  rewrite Hid, Hget; cbn [ret].

(** C2. [send] with [handler=None] registers [(d, return_controls, None,
    None, None)] under the message id; whenever that entry is in the
    table, a response with that id fires [d.callback] once, with the
    response (paired with its controls when [return_controls]), and
    deletes the id: afterwards the table has no entry for it, every
    other entry is as before, and a further response with the id finds
    no entry. *)
Theorem plain_operation_completes
  (st0 st1 : State) (mid : Z) (op : LDAPProtocolRequest)
  (ctrls : option (list Control)) (rc : bool) (d : Deferred)
  (Hsend : send mid op ctrls None rc st0 = Ok (d, st1))
  (Hmid : mid <> 0) :
  dict_get mid (onwire st1) = Some (d, rc, None, ArgsNone, None) /\
  forall (st : State) (msg : LDAPMessage),
    dict_get mid (onwire st) = Some (d, rc, None, ArgsNone, None) ->
    id msg = mid ->
    is_LDAPProtocolResponse (value msg) = true ->
    exists st',
      handle msg st = Ok (tt, st') /\
      events st' = events st ++ [callback d (plain_result rc msg)] /\
      onwire st' = dict_del mid (onwire st) /\
      dict_get mid (onwire st') = None /\
      (forall k, k <> mid -> dict_get k (onwire st') = dict_get k (onwire st)) /\
      buffer st' = buffer st /\ connected st' = connected st /\
      heap st' = heap st /\
      handle msg st' = Raise (KeyError mid, st').
Proof.
  split.
  - unfold send, _send, bindM, gets, assert_, new_Deferred, register, modify,
      raise, ret in Hsend.
    destruct (negb (truthy (connected st0))); [discriminate|].
    cbn [id] in Hsend.
    destruct (dict_in mid (onwire st0)) eqn:Hin; cbn in Hsend; [discriminate|].
    destruct (needs_answer op); cbn in Hsend; [|discriminate].
    injection Hsend as <- <-. cbn [onwire set_onwire emit].
    now apply dict_get_set_new.
  - intros st msg Hget Hid Hresp.
    assert (Hz : (id msg =? 0) = false) by (apply Z.eqb_neq; congruence).
    subst mid.
    destruct rc; (eexists; split;
      [ handle_start Hresp Hz Hget; cbn; unfold onwire_delitem; cbn;
        rewrite (dict_in_get _ _ _ Hget); reflexivity
      | cbn; repeat split;
        [ apply dict_get_del_same
        | intros k Hk; now apply dict_get_del_other
        | unfold handle, bindM, assert_, onwire_getitem;
          rewrite Hresp; cbn [ret]; rewrite Hz; cbn;
          now rewrite dict_get_del_same ] ]).
Qed.

(** C4. When the table holds an entry with a handler for the id of a
    response, [handle] calls the handler once, with the response (and
    its controls when [return_controls]) before the stored arguments.
    If the handler answers false, the table is unchanged and the
    Deferred is not fired. If it answers true, the id is deleted and the
    Deferred is fired with [None]; a further response with the id then
    finds no entry. *)
Theorem streaming_operation_step
  (st : State) (msg : LDAPMessage) (d : Deferred) (rc : bool) (h : Handler)
  (args : Args) (kwargs : Kwargs)
  (Hid : id msg <> 0)
  (Hresp : is_LDAPProtocolResponse (value msg) = true)
  (Hget : dict_get (id msg) (onwire st) = Some (d, rc, Some h, args, kwargs))
  (Hargs : args_not_none args = true)
  (Hkw : kwargs_not_none kwargs = true) :
  let pos := handler_args rc msg args in
  let kw := kwargs_items kwargs in
  let final := fst (h pos kw (heap st)) in
  exists st',
    handle msg st = Ok (tt, st') /\
    heap st' = snd (h pos kw (heap st)) /\
    buffer st' = buffer st /\ connected st' = connected st /\
    (final = false ->
       events st' = events st ++ [handler_called pos kw false] /\
       onwire st' = onwire st) /\
    (final = true ->
       events st' = events st ++ [handler_called pos kw true; callback d VNone] /\
       onwire st' = dict_del (id msg) (onwire st) /\
       dict_get (id msg) (onwire st') = None /\
       (forall k, k <> id msg ->
                  dict_get k (onwire st') = dict_get k (onwire st)) /\
       handle msg st' = Raise (KeyError (id msg), st')).
Proof.
  intros pos kw final.
  assert (Hz : (id msg =? 0) = false) by (now apply Z.eqb_neq).
  unfold handle, bindM, assert_, onwire_getitem.
  rewrite Hresp. cbn [ret]. rewrite Hz, Hget. cbn [ret].
  rewrite Hargs, Hkw. cbn [ret].
  subst final pos kw. unfold handler_args, call_handler.
  destruct rc;
    match goal with
    | |- context [h ?a ?k (heap st)] =>
        destruct (h a k (heap st)) as [fin hp] eqn:Eh
    end;
    destruct fin; cbn;
    unfold onwire_delitem; cbn;
    try rewrite (dict_in_get _ _ _ Hget); cbn;
    (eexists; split; [reflexivity|]);
    cbn; (split; [reflexivity|]); (split; [reflexivity|]);
    (split; [reflexivity|]);
    (split; intros Hf; [try discriminate Hf | try discriminate Hf]);
    repeat split; try rewrite <- app_assoc; try reflexivity;
    try apply dict_get_del_same;
    try (intros k Hk; now apply dict_get_del_other);
    try (rewrite dict_get_del_same; reflexivity).
Qed.

(** C9. A message whose id is not 0 and has no entry in the table makes
    [handle] raise ([KeyError] for the missing id; the assertion on the
    message's kind comes first) and changes nothing: no Deferred is
    fired and the table is as before. [dataReceived] does not catch the
    exception: it leaves the loop with it, after having cut the frame
    from the buffer. *)
Theorem unknown_id_raises
  (st : State) (msg : LDAPMessage)
  (Hid : id msg <> 0)
  (Hget : dict_get (id msg) (onwire st) = None) :
  let e := if is_LDAPProtocolResponse (value msg)
           then KeyError (id msg) else AssertionError in
  handle msg st = Raise (e, st) /\
  forall recd used,
    berDecodeObject (buffer st ++ recd) = Decoded (Some msg) used ->
    dataReceived recd st
    = ([msg], Raise (e, set_buffer (skipn used (buffer st ++ recd)) st)).
Proof.
  intros e.
  assert (Hz : (id msg =? 0) = false) by (now apply Z.eqb_neq).
  assert (Hh : forall st1, onwire st1 = onwire st ->
                           handle msg st1 = Raise (e, st1)).
  { intros st1 E. subst e. unfold handle, bindM, assert_, onwire_getitem.
    destruct (is_LDAPProtocolResponse (value msg)); cbn; auto.
    now rewrite Hz, E, Hget. }
  split; [now apply Hh|].
  intros recd used Hdec. unfold dataReceived.
  cbn [dataReceived_loop buffer set_buffer].
  unfold try_berDecodeObject. rewrite Hdec.
  rewrite Hh by reflexivity.
  reflexivity.
Qed.

(** ** The invariant holds in every reachable state *)

Lemma fired_app evs1 evs2 : fired (evs1 ++ evs2) = fired evs1 ++ fired evs2.
Proof.
  induction evs1 as [|e r IH]; simpl; auto.
  destruct e; simpl; now rewrite ?IH.
Qed.

Lemma NoDup_append {A} (l1 l2 : list A) :
  NoDup l1 -> NoDup l2 -> (forall a, In a l1 -> ~ In a l2) ->
  NoDup (l1 ++ l2).
Proof.
  induction 1 as [|x l Hx Hl IH]; intros H2 Hd; simpl; auto.
  constructor.
  - rewrite in_app_iff. intros [H|H]; [contradiction|].
    apply (Hd x); simpl; auto.
  - apply IH; auto. intros a Ha. apply Hd. simpl; auto.
Qed.

Lemma dict_in_false_keys k (o : Onwire) :
  dict_in k o = false -> ~ In k (map fst o).
Proof.
  unfold dict_in. induction o as [|[k' v] rest IH]; simpl; auto.
  destruct (k =? k') eqn:E; [discriminate|].
  apply Z.eqb_neq in E. intros H [H1|H1]; [congruence|]. now apply IH.
Qed.

Lemma dict_get_waiting k (o : Onwire) e :
  dict_get k o = Some e -> In (item0 e) (waiting o).
Proof.
  induction o as [|[k' v] rest IH]; simpl; [discriminate|].
  destruct (k =? k'); intros H.
  - injection H as ->. now left.
  - right. now apply IH.
Qed.

Lemma dict_del_incl {B} (f : Z * Entry -> B) k (o : Onwire) y :
  In y (map f (dict_del k o)) -> In y (map f o).
Proof.
  induction o as [|[k' v] rest IH]; simpl; auto.
  destruct (k =? k'); simpl; intuition.
Qed.

Lemma dict_del_NoDup {B} (f : Z * Entry -> B) k (o : Onwire) :
  NoDup (map f o) -> NoDup (map f (dict_del k o)).
Proof.
  induction o as [|[k' v] rest IH]; simpl; auto.
  intros H. inversion H as [|x l Hx Hl]; subst.
  destruct (k =? k'); simpl; auto.
  constructor; auto. intros Hin. apply Hx. eapply dict_del_incl; eauto.
Qed.

Lemma dict_del_removes_waiting k (o : Onwire) e :
  NoDup (waiting o) -> dict_get k o = Some e ->
  ~ In (item0 e) (waiting (dict_del k o)).
Proof.
  unfold waiting.
  induction o as [|[k' v] rest IH]; simpl; [discriminate|].
  intros H Hget. inversion H as [|x l Hx Hl]; subst.
  destruct (k =? k').
  - injection Hget as ->. intros Hin. apply Hx.
    eapply dict_del_incl; eauto.
  - simpl. intros [Heq|Hin].
    + apply Hx. rewrite Heq. eapply dict_get_waiting; eauto.
    + now apply IH.
Qed.

Section Invariant.
Variables (o : Onwire) (c : option Z) (f : Deferred) (evs : list Event).
Hypothesis HI : InvF o c f evs.

Lemma InvF_silent e : fired [e] = [] -> InvF o c f (evs ++ [e]).
Proof.
  intros He. destruct HI. constructor; auto;
    rewrite ?fired_app, ?He, ?app_nil_r; auto.
Qed.

Lemma InvF_fresh : InvF o c (S f) evs.
Proof.
  destruct HI. constructor; auto; intros d Hd.
  - apply Nat.lt_lt_succ_r; auto.
  - apply Nat.lt_lt_succ_r; auto.
Qed.

Lemma InvF_connectionMade : InvF o (Some 1) f evs.
Proof. destruct HI. constructor; auto. Qed.

Lemma InvF_register k rc h a kw :
  truthy c = true -> dict_in k o = false ->
  InvF (dict_set k (f, rc, h, a, kw) o) c (S f) evs.
Proof.
  intros Hc Hk. unfold dict_set. rewrite Hk.
  destruct HI. constructor; simpl; auto.
  - constructor; auto. now apply dict_in_false_keys.
  - constructor; auto. intros Hin.
    apply inv_waiting_fresh0 in Hin. lia.
  - intros d [<-|Hd]; [lia|]. apply Nat.lt_lt_succ_r; auto.
  - intros d Hd. apply Nat.lt_lt_succ_r; auto.
  - intros d Hd [<-|Hin].
    + apply inv_fired_fresh0 in Hd. lia.
    + eapply inv_fired_gone0; eauto.
Qed.

Lemma InvF_complete k e v :
  dict_get k o = Some e ->
  InvF (dict_del k o) c f (evs ++ [callback (item0 e) v]).
Proof.
  intros Hget. destruct HI.
  assert (Hw : In (item0 e) (waiting o)) by (eapply dict_get_waiting; eauto).
  constructor.
  - intros Hne. apply inv_connected0. intros ->. now apply Hne.
  - now apply dict_del_NoDup.
  - now apply dict_del_NoDup.
  - intros d Hd. apply inv_waiting_fresh0. eapply dict_del_incl; eauto.
  - intros d. rewrite fired_app, in_app_iff. simpl.
    intros [Hd|[<-|[]]]; auto.
  - intros d. rewrite fired_app, in_app_iff. simpl.
    intros [Hd|[<-|[]]].
    + intros Hin. eapply inv_fired_gone0; eauto. eapply dict_del_incl; eauto.
    + now apply dict_del_removes_waiting.
  - rewrite fired_app. simpl. apply NoDup_append; auto.
    + repeat constructor. simpl; tauto.
    + intros a Ha [<-|[]]. eapply inv_fired_gone0; eauto.
Qed.

Lemma fired_errbacks reason (items : Onwire) :
  fired (map (fun kv => errback (item0 (snd kv)) reason) items) = waiting items.
Proof.
  induction items as [|kv rest IH]; simpl; auto. now rewrite IH.
Qed.

Lemma InvF_connectionLost reason :
  InvF [] (Some 0) f
       (evs ++ map (fun kv => errback (item0 (snd kv)) reason) o).
Proof.
  destruct HI. constructor.
  - congruence.
  - constructor.
  - constructor.
  - intros d [].
  - intros d. rewrite fired_app, fired_errbacks, in_app_iff.
    intros [Hd|Hd]; auto.
  - intros d _ [].
  - rewrite fired_app, fired_errbacks. apply NoDup_append; auto.
Qed.

End Invariant.

Lemma connectionLost_loop_spec reason (items : Onwire) : forall st,
  onwire st = items ->
  connectionLost_loop items reason st
  = Build_State [] (buffer st) (connected st) (heap st) (fresh st)
      (events st ++ map (fun kv => errback (item0 (snd kv)) reason) items).
Proof.
  induction items as [|[k v] rest IH]; intros st E.
  - simpl. rewrite app_nil_r. destruct st; simpl in *. now subst.
  - simpl. rewrite IH by reflexivity. simpl. now rewrite <- app_assoc.
Qed.

Lemma Inv_init h : Inv (__init__ h).
Proof.
  constructor; simpl; try constructor; try congruence; intros d [].
Qed.

Lemma Inv_set_buffer b st : Inv st -> Inv (set_buffer b st).
Proof. auto. Qed.

Ltac inv_done HI :=
  match goal with
  | H : _ = Some _ |- _ => cbn in H; injection H as <-
  end;
  unfold Inv; cbn;
  try exact HI;
  repeat (apply InvF_silent; [|reflexivity]);
  try exact HI.

Lemma Inv_handle msg st st' :
  Inv st -> state_after (handle msg st) = Some st' -> Inv st'.
Proof.
  intros HI H.
  unfold handle, bindM, assert_, onwire_getitem, unsolicitedNotification,
    modify in H.
  destruct (is_LDAPProtocolResponse (value msg)); cbn in H; [|inv_done HI].
  destruct (id msg =? 0); cbn in H; [inv_done HI|].
  destruct (dict_get (id msg) (onwire st)) as [[[[[d rc] h] a] kw]|] eqn:Hget;
    cbn in H; [|inv_done HI].
  pose proof (dict_in_get _ _ _ Hget) as Hin.
  destruct h as [h|].
  - destruct (args_not_none a); cbn in H; [|inv_done HI].
    destruct (kwargs_not_none kw); cbn in H; [|inv_done HI].
    unfold call_handler in H.
    destruct rc;
      match type of H with
      | context [h ?x ?y (heap st)] => destruct (h x y (heap st)) as [fin hp]
      end;
      destruct fin; cbn in H; unfold onwire_delitem in H; cbn in H;
      try rewrite Hin in H; cbn in H;
      try (inv_done HI; fail);
      injection H as <-; unfold Inv; cbn;
      match goal with
      | |- InvF _ _ _ ((_ ++ [?hc]) ++ [callback d ?v]) =>
          apply (InvF_complete _ _ _ _
                   (InvF_silent _ _ _ _ HI hc eq_refl) _ _ v Hget)
      end.
  - destruct (args_none_or_empty a); cbn in H; [|inv_done HI].
    destruct (kwargs_none_or_empty kw); cbn in H; [|inv_done HI].
    unfold onwire_delitem in H.
    destruct rc; cbn in H; rewrite Hin in H; cbn in H;
      injection H as <-; unfold Inv; cbn;
      match goal with
      | |- InvF _ _ _ (_ ++ [callback d ?v]) =>
          apply (InvF_complete _ _ _ _ HI _ _ v Hget)
      end.
Qed.

Lemma Inv_dataReceived_loop fuel : forall st st',
  Inv st -> state_after (snd (dataReceived_loop fuel st)) = Some st' ->
  Inv st'.
Proof.
  induction fuel as [|fuel IH]; intros st st' HI H; simpl in H.
  - discriminate.
  - destruct (try_berDecodeObject (buffer st)) as [[o used]|what];
      [|inv_done HI].
    destruct o as [m|]; [|inv_done HI].
    destruct (handle m (set_buffer (skipn used (buffer st)) st))
      as [[u st1]|[e st1]|] eqn:Eh.
    + destruct (dataReceived_loop fuel st1) as [ms r] eqn:El.
      simpl in H. apply (IH st1); [|now rewrite El].
      eapply Inv_handle; [|rewrite Eh; reflexivity].
      now apply Inv_set_buffer.
    + simpl in H. injection H as <-.
      eapply Inv_handle; [|rewrite Eh; reflexivity].
      now apply Inv_set_buffer.
    + discriminate.
Qed.

Ltac send_cases HI H :=
  unfold send, send_multiResponse, send_multiResponse_ex, send_noResponse,
    _send, bindM, gets, assert_, new_Deferred, register, modify, raise, ret
    in H;
  cbn in H;
  destruct (truthy (connected _)) eqn:Hc; cbn in H; [|inv_done HI];
  destruct (dict_in _ (onwire _)) eqn:Hin; cbn in H; [inv_done HI|].

Lemma Inv_register st k rc h a kw e :
  Inv st -> truthy (connected st) = true -> dict_in k (onwire st) = false ->
  fired [e] = [] ->
  InvF (dict_set k (fresh st, rc, h, a, kw) (onwire st)) (connected st)
       (S (fresh st)) (events st ++ [e]).
Proof.
  intros HI Hc Hin He. apply InvF_silent; auto. now apply InvF_register.
Qed.

Lemma Inv_send mid op c h rc st st' :
  Inv st -> state_after (send mid op c h rc st) = Some st' -> Inv st'.
Proof.
  intros HI H. send_cases HI H.
  destruct (needs_answer op); cbn in H; [|inv_done HI].
  destruct h; cbn in H; injection H as <-; unfold Inv; cbn;
    now apply Inv_register.
Qed.

Lemma Inv_send_multiResponse mid op h a k st st' :
  Inv st -> state_after (send_multiResponse mid op h a k st) = Some st' ->
  Inv st'.
Proof.
  intros HI H. send_cases HI H.
  destruct (needs_answer op); cbn in H; [|inv_done HI].
  injection H as <-; unfold Inv; cbn. now apply Inv_register.
Qed.

Lemma Inv_send_multiResponse_ex mid op c h a k st st' :
  Inv st -> state_after (send_multiResponse_ex mid op c h a k st) = Some st' ->
  Inv st'.
Proof.
  intros HI H. send_cases HI H.
  destruct (needs_answer op); cbn in H; [|inv_done HI].
  injection H as <-; unfold Inv; cbn. now apply Inv_register.
Qed.

Lemma Inv_send_noResponse mid op c st st' :
  Inv st -> state_after (send_noResponse mid op c st) = Some st' -> Inv st'.
Proof.
  intros HI H. send_cases HI H.
  destruct (needs_answer op); cbn in H; inv_done HI.
Qed.

Lemma Inv_run c st st' : Inv st -> run c st = Some st' -> Inv st'.
Proof.
  intros HI H. destruct c; cbn [run] in H.
  - cbn in H. injection H as <-. exact (InvF_connectionMade _ _ _ _ HI).
  - unfold connectionLost in H. cbn [state_after] in H.
    rewrite connectionLost_loop_spec in H by reflexivity.
    injection H as <-. exact (InvF_connectionLost _ _ _ _ HI reason).
  - unfold dataReceived in H.
    eapply Inv_dataReceived_loop; [|exact H]. now apply Inv_set_buffer.
  - eapply Inv_handle; eauto.
  - eapply Inv_send; eauto.
  - eapply Inv_send_multiResponse; eauto.
  - eapply Inv_send_multiResponse_ex; eauto.
  - eapply Inv_send_noResponse; eauto.
  - unfold bind, bindM, gets, raise in H. cbn in H.
    destruct (truthy (connected st)) eqn:Hc; cbn in H; [|inv_done HI].
    destruct (send mid (LDAPBindRequest dn auth) None None false st)
      as [[d st1]|[e st1]|] eqn:Es; cbn in H.
    + injection H as <-. unfold Inv; cbn.
      apply InvF_silent; [|reflexivity].
      eapply Inv_send; [exact HI|rewrite Es; reflexivity].
    + injection H as <-.
      eapply Inv_send; [exact HI|rewrite Es; reflexivity].
    + discriminate.
  - unfold unbind, bindM, gets, raise in H. cbn in H.
    destruct (truthy (connected st)) eqn:Hc; cbn in H; [|inv_done HI].
    destruct (send_noResponse mid LDAPUnbindRequest None st)
      as [[d st1]|[e st1]|] eqn:Es; cbn in H.
    + injection H as <-. unfold Inv; cbn.
      apply InvF_silent; [|reflexivity].
      eapply Inv_send_noResponse; [exact HI|rewrite Es; reflexivity].
    + injection H as <-.
      eapply Inv_send_noResponse; [exact HI|rewrite Es; reflexivity].
    + discriminate.
  - cbn in H. injection H as <-. unfold Inv; cbn.
    do 2 (apply InvF_silent; [|reflexivity]). now apply InvF_fresh.
  - unfold _startTLS, bindM, gets, raise in H. cbn in H.
    destruct (truthy (connected st)) eqn:Hc; cbn in H; [|inv_done HI].
    destruct (onwire st) eqn:Eo; [|inv_done HI].
    destruct (send mid LDAPStartTLSRequest None None false st)
      as [[d st1]|[e st1]|] eqn:Es; cbn in H.
    + injection H as <-. unfold Inv; cbn.
      apply InvF_silent; [|reflexivity].
      eapply Inv_send; [exact HI|rewrite Es; reflexivity].
    + injection H as <-.
      eapply Inv_send; [exact HI|rewrite Es; reflexivity].
    + discriminate.
  - unfold _cbStartTLS, bindM, assert_, raise, modify, ret in H.
    destruct msg as [|[op|[r sc|r rn rs|on|r|b]]| | | | |]; cbn in H;
      try (inv_done HI; fail).
    destruct (referral r); cbn in H; [inv_done HI|].
    destruct (resultCode r =? Success_resultCode); cbn in H; [|inv_done HI].
    destruct rn as [name|]; [destruct (string_neqb _ _)|]; cbn in H;
      inv_done HI.
Qed.

(** Every reachable state satisfies the invariant: in particular a
    non-empty table belongs to a connected client, and no Deferred is
    fired twice. *)
Lemma reachable_Inv st : reachable st -> Inv st.
Proof.
  induction 1 as [h|c st st' Hr IH Hrun].
  - apply Inv_init.
  - eapply Inv_run; eauto.
Qed.

(** ** Connection loss *)

(** C3. [connectionLost], in any state the client can be in, returns
    with the table empty and the client disconnected, having called
    [errback(reason)] on the Deferred of every entry that was in the
    table, newest first, and nothing else; each of those Deferreds has
    then been fired exactly once over the client's whole history.
    Calling it again, at once, changes nothing and fires nothing. *)
Theorem connectionLost_fails_all
  (st : State) (reason : Reason) (Hreach : reachable st) :
  exists st',
    connectionLost reason st = Ok (tt, st') /\
    onwire st' = [] /\
    connected st' = Some 0 /\
    events st'
    = events st ++ map (fun kv => errback (item0 (snd kv)) reason) (onwire st) /\
    (forall d, In d (waiting (onwire st)) ->
               count_occ Nat.eq_dec (fired (events st')) d = 1%nat) /\
    (forall reason', connectionLost reason' st' = Ok (tt, st')).
Proof.
  pose proof (reachable_Inv st Hreach) as HI.
  unfold connectionLost.
  rewrite connectionLost_loop_spec by reflexivity. cbn.
  eexists. split; [reflexivity|]. cbn.
  repeat split.
  - intros d Hd.
    pose proof (InvF_connectionLost _ _ _ _ HI reason) as HI'.
    apply NoDup_count_occ'; [apply (inv_fired_once _ _ _ _ HI')|].
    rewrite fired_app, fired_errbacks, in_app_iff. now right.
Qed.

(** ** STARTTLS *)

(** C6. In any state the client can be in with at least one operation
    in the table, [_startTLS] raises [LDAPStartTLSBusyError] carrying
    the table, and leaves the client as it was: connected, every entry
    in place, nothing written and the transport not told to start
    TLS. *)
Theorem startTLS_busy
  (st : State) (mid : Z) (ctx : Ctx)
  (Hreach : reachable st) (Hbusy : onwire st <> []) :
  _startTLS mid ctx st = Raise (LDAPStartTLSBusyError (onwire st), st) /\
  truthy (connected st) = true.
Proof.
  pose proof (inv_connected _ _ _ _ (reachable_Inv st Hreach) Hbusy) as Hc.
  split; [|exact Hc].
  unfold _startTLS, bindM, gets, raise. rewrite Hc. cbn.
  destruct (onwire st); [contradiction|reflexivity].
Qed.

(** C7. For a STARTTLS response (an extended response; the method
    asserts that it carries no referral): a result code other than
    success raises the error [ldaperrors.get] maps it to; success with a
    response name other than the STARTTLS OID raises
    [LDAPStartTLSInvalidResponseName]; success with no name or the right
    name calls [transport.startTLS(ctx)] and returns the client. The
    transport is told to start TLS in that last case only: whenever the
    method raises, it has done nothing. *)
Theorem cbStartTLS_validates
  (st : State) (r : LDAPResult) (responseName response : option string)
  (ctx : Ctx) (Href : referral r = None) :
  let msg := VOp (Response (LDAPExtendedResponse r responseName response)) in
  (resultCode r <> Success_resultCode ->
     _cbStartTLS msg ctx st
     = Raise (ldaperrors_get (resultCode r) (errorMessage r), st)) /\
  (resultCode r = Success_resultCode ->
     forall name, responseName = Some name ->
                  name <> LDAPStartTLSResponse_oid ->
     _cbStartTLS msg ctx st = Raise (LDAPStartTLSInvalidResponseName name, st)) /\
  (resultCode r = Success_resultCode ->
     responseName = None \/ responseName = Some LDAPStartTLSResponse_oid ->
     _cbStartTLS msg ctx st = Ok (VSelf, emit (transport_startTLS ctx) st)) /\
  (forall v st', _cbStartTLS msg ctx st = Ok (v, st') ->
     resultCode r = Success_resultCode /\
     (responseName = None \/ responseName = Some LDAPStartTLSResponse_oid) /\
     events st' = events st ++ [transport_startTLS ctx]) /\
  (forall e st', _cbStartTLS msg ctx st = Raise (e, st') -> st' = st).
Proof.
  intros msg. subst msg.
  unfold _cbStartTLS, bindM, assert_, raise, modify, ret, string_neqb.
  rewrite Href. cbn.
  destruct (resultCode r =? Success_resultCode) eqn:Ec; cbn.
  - apply Z.eqb_eq in Ec.
    destruct responseName as [name|].
    + destruct (String.eqb name LDAPStartTLSResponse_oid) eqn:En; cbn.
      * apply String.eqb_eq in En. subst name.
        split; [congruence|]. split; [intros _ n Hn; congruence|].
        split; [reflexivity|]. split.
        -- intros v st' H. injection H as <- <-. auto.
        -- intros e st' H. discriminate H.
      * apply String.eqb_neq in En.
        split; [congruence|].
        split; [intros _ n Hn _; congruence|].
        split; [intros _ [H|H]; congruence|].
        split.
        -- intros v st' H. discriminate H.
        -- intros e st' H. now injection H as _ <-.
    + split; [congruence|]. split; [intros _ n Hn; congruence|].
      split; [reflexivity|]. split.
      * intros v st' H. injection H as <- <-. auto.
      * intros e st' H. discriminate H.
  - apply Z.eqb_neq in Ec.
    split; [reflexivity|]. split; [congruence|]. split; [congruence|].
    split.
    + intros v st' H. discriminate H.
    + intros e st' H. now injection H as _ <-.
Qed.

(** ** Frame decoding: [dataReceived] *)

(** Either [handle] raises and the client is as before, or it returns
    and has changed the heap and the record of calls only, or it has
    also deleted the entry of the message's id and fired that entry's
    Deferred, and no other. *)
Lemma handle_shape msg st :
  (exists e, handle msg st = Raise (e, st)) \/
  (exists o' hp evs,
     handle msg st
     = Ok (tt, Build_State o' (buffer st) (connected st) hp (fresh st)
                 (events st ++ evs)) /\
     ((o' = onwire st /\ fired evs = []) \/
      (id msg <> 0 /\
       exists e, dict_get (id msg) (onwire st) = Some e /\
                 o' = dict_del (id msg) (onwire st) /\
                 fired evs = [item0 e]))).
Proof.
  unfold handle, bindM, assert_, onwire_getitem, unsolicitedNotification,
    modify.
  destruct (is_LDAPProtocolResponse (value msg)); cbn; [|left; eauto].
  destruct (id msg =? 0) eqn:Hz; cbn.
  { right. exists (onwire st), (heap st), [log_unsolicited (value msg)].
    split; [reflexivity|]. left. auto. }
  apply Z.eqb_neq in Hz.
  destruct (dict_get (id msg) (onwire st)) as [[[[[d rc] h] a] kw]|] eqn:Hget;
    cbn; [|left; eauto].
  pose proof (dict_in_get _ _ _ Hget) as Hin.
  destruct h as [h|].
  - destruct (args_not_none a); cbn; [|left; eauto].
    destruct (kwargs_not_none kw); cbn; [|left; eauto].
    unfold call_handler.
    destruct rc; cbn;
      match goal with
      | |- context [h ?x ?y (heap st)] =>
          destruct (h x y (heap st)) as [fin hp]
      end;
      destruct fin; cbn; unfold onwire_delitem; cbn;
      try rewrite Hin; cbn; right.
    + eexists _, hp, [_; _]. split.
      * unfold emit, set_onwire, set_heap. cbn.
        rewrite <- app_assoc. reflexivity.
      * right. split; [exact Hz|]. eexists. split; [reflexivity|]. auto.
    + eexists _, hp, [_]. split; [reflexivity|]. left. auto.
    + eexists _, hp, [_; _]. split.
      * unfold emit, set_onwire, set_heap. cbn.
        rewrite <- app_assoc. reflexivity.
      * right. split; [exact Hz|]. eexists. split; [reflexivity|]. auto.
    + eexists _, hp, [_]. split; [reflexivity|]. left. auto.
  - destruct (args_none_or_empty a); cbn; [|left; eauto].
    destruct (kwargs_none_or_empty kw); cbn; [|left; eauto].
    unfold onwire_delitem.
    destruct rc; cbn; rewrite Hin; cbn; right;
      (eexists _, (heap st), [_]; split; [reflexivity|];
       right; split; [exact Hz|]; eexists; split; [reflexivity|]; auto).
Qed.

Lemma handle_returns m st : handle m st <> OutOfFuel.
Proof.
  destruct (handle_shape m st) as [(e & E)|(o' & hp & evs & E & _)];
    rewrite E; discriminate.
Qed.


(** [handle] neither reads nor writes the receive buffer. *)
Lemma handle_buffer m b st :
  handle m (set_buffer b st) = rebuffer b (handle m st).
Proof.
  unfold handle, bindM, assert_, onwire_getitem, unsolicitedNotification,
    modify.
  destruct (is_LDAPProtocolResponse (value m)); cbn; [|reflexivity].
  destruct (id m =? 0); cbn; [reflexivity|].
  destruct (dict_get (id m) (onwire st)) as [[[[[d rc] h] a] kw]|] eqn:Hget;
    cbn; [|reflexivity].
  pose proof (dict_in_get _ _ _ Hget) as Hin.
  destruct h as [h|].
  - destruct (args_not_none a); cbn; [|reflexivity].
    destruct (kwargs_not_none kw); cbn; [|reflexivity].
    unfold call_handler.
    destruct rc; cbn;
      match goal with
      | |- context [h ?x ?y (heap st)] => destruct (h x y (heap st)) as [fin hp]
      end;
      destruct fin; cbn; unfold onwire_delitem; cbn;
      try rewrite Hin; reflexivity.
  - destruct (args_none_or_empty a); cbn; [|reflexivity].
    destruct (kwargs_none_or_empty kw); cbn; [|reflexivity].
    unfold onwire_delitem.
    destruct rc; cbn; rewrite Hin; reflexivity.
Qed.

Lemma handle_all_app ms1 : forall ms2 st,
  handle_all (ms1 ++ ms2) st
  = match handle_all ms1 st with
    | (l1, Ok (_, st1)) =>
        let '(l2, r2) := handle_all ms2 st1 in (l1 ++ l2, r2)
    | (l1, r) => (l1, r)
    end.
Proof.
  induction ms1 as [|m ms1 IH]; intros ms2 st; simpl.
  - now destruct (handle_all ms2 st).
  - destruct (handle m st) as [[u st']|r|]; auto.
    rewrite IH.
    destruct (handle_all ms1 st') as [l1 [[u1 st1]|r1|]]; auto.
    now destruct (handle_all ms2 st1).
Qed.

Lemma set_buffer_twice x y st : set_buffer x (set_buffer y st) = set_buffer x st.
Proof. reflexivity. Qed.

Lemma buffer_set_buffer x st : buffer (set_buffer x st) = x.
Proof. reflexivity. Qed.

Definition frame_ok (fm : bytes * LDAPMessage) : Prop :=
  is_frame (fst fm) (snd fm).

Lemma frames_list buf ms :
  frames buf ms ->
  exists fs, Forall frame_ok fs /\ buf = concat (map fst fs) /\ ms = map snd fs.
Proof.
  induction 1 as [|f m rest ms Hf Hr (fs & HF & -> & ->)].
  - exists []. auto.
  - exists ((f, m) :: fs). repeat split; auto.
Qed.

Lemma frames_length fs :
  Forall frame_ok fs -> (length fs <= length (concat (map fst fs)))%nat.
Proof.
  induction 1 as [|[f m] fs (Hne & _) HF IH]; simpl; auto.
  rewrite length_app. destruct f; [contradiction|]. simpl in *. lia.
Qed.

Lemma stalls_decode p :
  stalls p -> try_berDecodeObject p = inl (None, 0%nat).
Proof. unfold try_berDecodeObject. now intros [-> | ->]. Qed.

(** The loop on a buffer made of whole frames and a stalled rest: the
    frames' messages are dispatched in order, and the rest stays. *)
Lemma loop_frames p (Hp : stalls p) fs :
  Forall frame_ok fs -> forall fuel st, (length fs < fuel)%nat ->
  exists b,
    dataReceived_loop fuel (set_buffer (concat (map fst fs) ++ p) st)
    = (fst (handle_all (map snd fs) st),
       rebuffer b (snd (handle_all (map snd fs) st))) /\
    (forall st', snd (handle_all (map snd fs) st) = Ok (tt, st') -> b = p).
Proof.
  induction 1 as [|[f m] fs (Hne & Hdec & Hpre) HF IH]; intros fuel st Hfuel.
  - exists p. split; [|auto].
    destruct fuel as [|fuel]; [lia|]. cbn.
    now rewrite (stalls_decode _ Hp).
  - destruct fuel as [|fuel]; [simpl in Hfuel; lia|].
    cbn [fst snd] in Hne, Hdec, Hpre.
    cbn [map fst snd concat handle_all].
    rewrite <- app_assoc.
    cbn [dataReceived_loop].
    rewrite buffer_set_buffer.
    unfold try_berDecodeObject. rewrite Hdec.
    rewrite skipn_app, skipn_all, Nat.sub_diag. cbn [skipn app].
    rewrite set_buffer_twice, handle_buffer.
    destruct (handle m st) as [[u st1]|[e st1]|]; cbn [rebuffer].
    + destruct (IH fuel st1) as (b & E & Hb); [simpl in Hfuel; lia|].
      rewrite E.
      destruct (handle_all (map snd fs) st1) as [l r]. cbn.
      exists b. split; auto.
    + eexists. split; [reflexivity|]. cbn. discriminate.
    + exists p. split; [reflexivity|]. cbn. discriminate.
Qed.

(** A prefix of a stream of frames is some of the frames and a proper
    prefix of the next one. *)
Lemma stream_prefix (Hnil : stalls []) fs :
  Forall frame_ok fs -> forall X R,
  X ++ R = concat (map fst fs) ->
  exists fs1 fs2 p,
    fs = fs1 ++ fs2 /\ X = concat (map fst fs1) ++ p /\
    p ++ R = concat (map fst fs2) /\ stalls p.
Proof.
  induction 1 as [|[f m] fs (Hne & Hdec & Hpre) HF IH]; intros X R E.
  - simpl in E. apply app_eq_nil in E as [-> ->].
    exists [], [], []. auto.
  - simpl in E. apply app_eq_app in E as [l [[-> E]|[E1 E2]]].
    + destruct (IH l R) as (fs1 & fs2 & p & -> & -> & Ep & Hp); auto.
      exists ((f, m) :: fs1), fs2, p. simpl.
      rewrite app_assoc. auto.
    + destruct l as [|x l].
      * rewrite app_nil_r in E1. subst X. simpl in E2. subst R.
        exists [(f, m)], fs, []. simpl. rewrite !app_nil_r. auto.
      * exists [], ((f, m) :: fs), X. simpl.
        repeat split; auto.
        -- rewrite E1, E2. now rewrite <- app_assoc.
        -- apply (Hpre X (x :: l)); auto. discriminate.
Qed.

Lemma set_buffer_same st : set_buffer (buffer st) st = st.
Proof. now destruct st. Qed.

(** Chunked delivery of a stream of frames dispatches the frames'
    messages in order. *)
Lemma feed_frames (Hnil : stalls []) chunks : forall fs p st,
  Forall frame_ok fs -> stalls p ->
  p ++ concat chunks = concat (map fst fs) ->
  exists b,
    feed chunks (set_buffer p st)
    = (fst (handle_all (map snd fs) st),
       rebuffer b (snd (handle_all (map snd fs) st))) /\
    (forall st', snd (handle_all (map snd fs) st) = Ok (tt, st') -> b = []).
Proof.
  induction chunks as [|c chunks IH]; intros fs p st HF Hp E.
  - simpl in E. rewrite app_nil_r in E.
    destruct fs as [|[f m] fs].
    + simpl in E. subst p. exists []. cbn. auto.
    + exfalso. simpl in E. subst p.
      inversion HF as [|x l (Hne & Hdec & Hpre) HF']; subst.
      cbn [fst snd] in Hne, Hdec.
      destruct Hp as [Hp|Hp]; rewrite Hdec in Hp; discriminate.
  - simpl in E. rewrite app_assoc in E.
    destruct (stream_prefix Hnil fs HF _ _ E)
      as (fs1 & fs2 & p' & -> & EX & ER & Hp').
    apply Forall_app in HF as [HF1 HF2].
    cbn [feed]. unfold dataReceived.
    rewrite set_buffer_twice, !buffer_set_buffer.
    rewrite EX.
    destruct (loop_frames p' Hp' fs1 HF1
                (S (length (concat (map fst fs1) ++ p'))) st)
      as (b1 & E1 & Hb1).
    { pose proof (frames_length fs1 HF1). rewrite length_app. lia. }
    rewrite E1. rewrite map_app, handle_all_app.
    destruct (handle_all (map snd fs1) st) as [l1 [[[] st1]|[e st1]|]];
      cbn [fst snd rebuffer] in *.
    + rewrite (Hb1 st1 eq_refl).
      destruct (IH fs2 p' st1 HF2 Hp' ER) as (b & E2 & Hb).
      rewrite E2.
      destruct (handle_all (map snd fs2) st1) as [l2 r2]. cbn.
      exists b. split; auto.
    + eexists. split; [reflexivity|]. discriminate.
    + exists []. split; [reflexivity|]. discriminate.
Qed.

Lemma handle_all_returns ms : forall st,
  snd (handle_all ms st) <> OutOfFuel.
Proof.
  induction ms as [|m ms IH]; intros st; simpl; [discriminate|].
  destruct (handle m st) as [[u st']|r|] eqn:Eh.
  - specialize (IH st'). now destruct (handle_all ms st').
  - discriminate.
  - exfalso. exact (handle_returns _ _ Eh).
Qed.

(** When every dispatch returns, all the messages have been dispatched
    and the buffer has been left alone. *)
Lemma handle_all_ok ms : forall st st',
  snd (handle_all ms st) = Ok (tt, st') ->
  fst (handle_all ms st) = ms /\ buffer st' = buffer st.
Proof.
  induction ms as [|m ms IH]; intros st st' H; simpl in *.
  - injection H as <-. auto.
  - pose proof (handle_buffer m (buffer st) st) as Hb.
    rewrite set_buffer_same in Hb.
    destruct (handle m st) as [[u s1]|r|]; try discriminate.
    cbn [rebuffer] in Hb. injection Hb as Hb.
    destruct (handle_all ms s1) as [l r] eqn:E. simpl in H. subst r.
    destruct (IH s1 st') as (Hl & Hbuf); [now rewrite E|].
    rewrite E in Hl. simpl in Hl. subst l. simpl.
    split; [reflexivity|]. rewrite Hbuf, Hb. reflexivity.
Qed.

Lemma rebuffer_returns b r : r <> OutOfFuel -> rebuffer b r <> OutOfFuel.
Proof. destruct r as [[u s]|[e s]|]; simpl; congruence. Qed.

(** C1. Let [buf] be the frames of one or more messages [ms], and let
    the client's buffer be empty. Delivered at once or cut into chunks
    at any places, [buf] makes the client dispatch the messages of [ms]
    in order, up to the first [handle] call that raises, with the same
    effects and the same exception; both deliveries end. When no
    [handle] call raises, all of [ms] are dispatched and both deliveries
    return the same state, with an empty buffer. A delivery that holds
    only a proper prefix of a frame dispatches nothing, raises nothing
    and keeps exactly those bytes in the buffer. *)
Theorem dataReceived_split_invariant
  (st : State) (buf : bytes) (ms : list LDAPMessage) (chunks : list bytes)
  (Hframes : frames buf ms) (Hms : ms <> [])
  (Hempty : buffer st = []) (Hchunks : concat chunks = buf) :
  fst (dataReceived buf st) = fst (handle_all ms st) /\
  fst (feed chunks st) = fst (handle_all ms st) /\
  fst (feed chunks st) = fst (dataReceived buf st) /\
  rebuffer [] (snd (dataReceived buf st)) = rebuffer [] (snd (handle_all ms st)) /\
  rebuffer [] (snd (feed chunks st)) = rebuffer [] (snd (handle_all ms st)) /\
  rebuffer [] (snd (feed chunks st)) = rebuffer [] (snd (dataReceived buf st)) /\
  snd (dataReceived buf st) <> OutOfFuel /\
  snd (feed chunks st) <> OutOfFuel /\
  (forall st', snd (handle_all ms st) = Ok (tt, st') ->
     dataReceived buf st = (ms, Ok (tt, st')) /\
     feed chunks st = (ms, Ok (tt, st')) /\
     buffer st' = []) /\
  (forall f m p q, is_frame f m -> f = p ++ q -> q <> [] ->
     dataReceived p st = ([], Ok (tt, set_buffer p st))).
Proof.
  destruct (frames_list _ _ Hframes) as (fs & HF & -> & ->).
  assert (Hnil : stalls []).
  { destruct fs as [|[f m] fs]; [contradiction|].
    inversion HF as [|x l (Hne & Hdec & Hpre) HF']; subst.
    apply (Hpre [] f); auto. }
  assert (Est : set_buffer [] st = st)
    by (rewrite <- Hempty; apply set_buffer_same).
  destruct (feed_frames Hnil chunks fs [] st HF Hnil Hchunks)
    as (b & Ef & Hb).
  rewrite Est in Ef.
  assert (Ed : exists b',
    dataReceived (concat (map fst fs)) st
    = (fst (handle_all (map snd fs) st),
       rebuffer b' (snd (handle_all (map snd fs) st))) /\
    (forall st', snd (handle_all (map snd fs) st) = Ok (tt, st') -> b' = [])).
  { unfold dataReceived. rewrite Hempty. cbn [app].
    rewrite buffer_set_buffer.
    replace (set_buffer (concat (map fst fs)) st)
      with (set_buffer (concat (map fst fs) ++ []) st)
      by now rewrite app_nil_r.
    apply loop_frames; auto.
    pose proof (frames_length fs HF). lia. }
  destruct Ed as (b' & Ed & Hb').
  pose proof (handle_all_returns (map snd fs) st) as Hret.
  assert (Hrb : forall x y (r : Result),
            rebuffer x (rebuffer y r) = rebuffer x r).
  { intros x y [[u s]|[e s]|]; reflexivity. }
  rewrite Ef, Ed. cbn [fst snd]. rewrite !Hrb.
  repeat (split; [first [reflexivity | now apply rebuffer_returns]|]).
  split.
  - intros st' Hok.
    destruct (handle_all_ok _ _ _ Hok) as (Hl & Hbuf).
    rewrite Hempty in Hbuf.
    rewrite Hl, Hok, (Hb st' Hok), (Hb' st' Hok). cbn [rebuffer].
    rewrite <- Hbuf, set_buffer_same. auto.
  - intros f m p q (Hne & Hdec & Hpre) Hf Hq.
    unfold dataReceived. rewrite Hempty. cbn [app dataReceived_loop].
    rewrite buffer_set_buffer, (stalls_decode p (Hpre p q Hf Hq)).
    cbn [skipn]. now rewrite set_buffer_twice.
Qed.

(** ** What [handle] can do to the client *)


(** X8. A response is dispatched to the entry of its own id and to no
    other: whatever [handle] does, every entry under another id is as
    before and the only Deferred it may fire is the one registered
    under the message's id; a message with id 0 fires none and leaves
    the table as it is. The buffer, the connection flag and the
    Deferred allocator are not touched. *)
Theorem handle_touches_only_its_id
  (msg : LDAPMessage) (st st' : State)
  (Hafter : state_after (handle msg st) = Some st') :
  (forall k, k <> id msg -> dict_get k (onwire st') = dict_get k (onwire st)) /\
  (forall d, In d (fired (events st')) ->
     In d (fired (events st)) \/
     exists e, dict_get (id msg) (onwire st) = Some e /\ d = item0 e) /\
  (id msg = 0 ->
     onwire st' = onwire st /\ fired (events st') = fired (events st)) /\
  buffer st' = buffer st /\ connected st' = connected st /\
  fresh st' = fresh st.
Proof.
  destruct (handle_shape msg st) as [(e & E)|(o' & hp & evs & E & Hcase)];
    rewrite E in Hafter; injection Hafter as <-.
  - repeat split; auto.
  - cbn. destruct Hcase as [(-> & Hf)|(Hz & e & Hget & -> & Hf)].
    + repeat split; auto.
      * intros d. rewrite fired_app, Hf, app_nil_r. auto.
      * now rewrite fired_app, Hf, app_nil_r.
    + repeat split; auto; try contradiction.
      * intros k Hk. now apply dict_get_del_other.
      * intros d. rewrite fired_app, Hf, in_app_iff.
        intros [Hd|[<-|[]]]; eauto.
Qed.

(** ** More on [dataReceived] *)

Lemma handle_keeps_buffer m st st' :
  state_after (handle m st) = Some st' -> buffer st' = buffer st.
Proof.
  intros H. now destruct (handle_touches_only_its_id m st st' H)
    as (_ & _ & _ & Hb & _).
Qed.




(** A decoder makes progress when every object it returns uses at least
    one byte of a non-empty buffer. *)
Definition decoder_progress : Prop :=
  forall b m used,
    berDecodeObject b = Decoded (Some m) used -> (0 < used)%nat /\ b <> [].

Lemma dataReceived_loop_returns (Hp : decoder_progress) fuel : forall st,
  (length (buffer st) < fuel)%nat ->
  snd (dataReceived_loop fuel st) <> OutOfFuel.
Proof.
  induction fuel as [|fuel IH]; intros st Hf; [lia|].
  cbn.
  destruct (try_berDecodeObject (buffer st)) as [[o used]|what] eqn:Ed;
    [|discriminate].
  destruct o as [m|]; [|discriminate].
  destruct (handle m (set_buffer (skipn used (buffer st)) st))
    as [[u st1]|[e st1]|] eqn:Eh; [|discriminate|].
  - destruct (dataReceived_loop fuel st1) as [ms r] eqn:El. cbn.
    assert (Ha : state_after (handle m (set_buffer (skipn used (buffer st)) st))
                 = Some st1) by (now rewrite Eh).
    pose proof (handle_keeps_buffer _ _ _ Ha) as Hb. cbn in Hb.
    assert (Hd : berDecodeObject (buffer st) = Decoded (Some m) used).
    { unfold try_berDecodeObject in Ed.
      destruct (berDecodeObject (buffer st)); try discriminate.
      now injection Ed as -> ->. }
    destruct (Hp _ _ _ Hd) as [Hu Hne].
    specialize (IH st1). rewrite El in IH. apply IH.
    rewrite Hb, length_skipn.
    assert (length (buffer st) <> 0)%nat
      by (destruct (buffer st); [contradiction|discriminate]).
    lia.
  - exfalso. exact (handle_returns _ _ Eh).
Qed.

(** X10. With a decoder that makes progress, the [while 1] loop of
    [dataReceived] ends on every delivery and in every state: it
    returns or raises within as many rounds as the buffer has bytes,
    plus one. *)
Theorem dataReceived_terminates
  (Hp : decoder_progress) (recd : bytes) (st : State) :
  snd (dataReceived recd st) <> OutOfFuel.
Proof.
  unfold dataReceived. apply dataReceived_loop_returns; auto.
Qed.

(** X11. When the decoder finds no object it ends the loop, even if it
    has used bytes: they are cut from the buffer, nothing is
    dispatched, and what follows them waits for the next delivery.
    When the decoder raises anything but "insufficient data", the
    exception leaves [dataReceived] and the buffer keeps every byte. *)
Theorem dataReceived_without_object (recd : bytes) (st : State) :
  (forall used,
     berDecodeObject (buffer st ++ recd) = Decoded None used ->
     dataReceived recd st
     = ([], Ok (tt, set_buffer (skipn used (buffer st ++ recd)) st))) /\
  (berDecodeObject (buffer st ++ recd) = BERExceptionInsufficientData ->
     dataReceived recd st = ([], Ok (tt, set_buffer (buffer st ++ recd) st))) /\
  (forall what,
     berDecodeObject (buffer st ++ recd) = BERException what ->
     dataReceived recd st
     = ([], Raise (BERError what, set_buffer (buffer st ++ recd) st))).
Proof.
  unfold dataReceived. cbn [dataReceived_loop].
  rewrite buffer_set_buffer. unfold try_berDecodeObject.
  repeat split; intros; rewrite H; reflexivity.
Qed.

(** ** Sending *)

(** X4. A client that is not connected (never connected, or after
    [connectionLost]) refuses every operation before doing anything:
    the four [send] methods, [bind] and [_startTLS] raise
    [LDAPClientConnectionLostException], [unbind] raises its own
    exception, and the client is exactly as before: nothing is
    registered, written or allocated. *)
Theorem disconnected_client_refuses
  (st : State) (Hdis : truthy (connected st) = false) :
  (forall mid op c h rc,
     send mid op c h rc st = Raise (LDAPClientConnectionLostException, st)) /\
  (forall mid op h a k,
     send_multiResponse mid op h a k st
     = Raise (LDAPClientConnectionLostException, st)) /\
  (forall mid op c h a k,
     send_multiResponse_ex mid op c h a k st
     = Raise (LDAPClientConnectionLostException, st)) /\
  (forall mid op c,
     send_noResponse mid op c st
     = Raise (LDAPClientConnectionLostException, st)) /\
  (forall mid dn auth,
     bind mid dn auth st = Raise (LDAPClientConnectionLostException, st)) /\
  (forall mid, unbind mid st = Raise (Exception "Not connected (TODO)", st)) /\
  (forall mid ctx,
     _startTLS mid ctx st = Raise (LDAPClientConnectionLostException, st)).
Proof.
  unfold send, send_multiResponse, send_multiResponse_ex, send_noResponse,
    bind, unbind, _startTLS, _send, bindM, gets, raise.
  rewrite Hdis. cbn. repeat split.
Qed.

(** X5. On a connected client the checks of the [send] methods come
    before any effect: with a message id that is already on the wire
    all four raise [AssertionError], and so do [send],
    [send_multiResponse] and [send_multiResponse_ex] for an operation
    that needs no answer and [send_noResponse] for one that needs an
    answer; in each case the client is exactly as before the call:
    nothing is allocated, registered or written. (What
    [transport.write] may raise after the registration is the
    transport's, and is not covered here.) *)
Theorem refused_send_leaves_no_trace
  (st : State) (mid : Z) (op : LDAPProtocolRequest)
  (c : option (list Control)) (h : option Handler) (rc : bool)
  (a : list PyVal) (k : list (string * PyVal))
  (Hconn : truthy (connected st) = true) :
  (dict_in mid (onwire st) = true ->
     send mid op c h rc st = Raise (AssertionError, st) /\
     send_multiResponse mid op h a k st = Raise (AssertionError, st) /\
     send_multiResponse_ex mid op c h a k st = Raise (AssertionError, st) /\
     send_noResponse mid op c st = Raise (AssertionError, st)) /\
  (needs_answer op = false ->
     send mid op c h rc st = Raise (AssertionError, st) /\
     send_multiResponse mid op h a k st = Raise (AssertionError, st) /\
     send_multiResponse_ex mid op c h a k st = Raise (AssertionError, st)) /\
  (needs_answer op = true ->
     send_noResponse mid op c st = Raise (AssertionError, st)).
Proof.
  unfold send, send_multiResponse, send_multiResponse_ex, send_noResponse,
    _send, bindM, gets, assert_, new_Deferred, register, modify, raise, ret.
  cbn. rewrite Hconn. cbn.
  split; [|split].
  - intros ->. cbn. repeat split.
  - intros ->. destruct (dict_in mid (onwire st)); cbn; repeat split.
  - intros ->. destruct (dict_in mid (onwire st)); cbn; repeat split.
Qed.

(** What a [send] that returns has done. *)
Lemma send_returns
  (st st' : State) (mid : Z) (op : LDAPProtocolRequest)
  (c : option (list Control)) (h : option Handler) (rc : bool) (d : Deferred)
  (Hsend : send mid op c h rc st = Ok (d, st')) :
  d = fresh st /\ fresh st' = S (fresh st) /\
  onwire st'
  = (mid, match h with
          | Some f => (d, rc, Some f, ArgsList [], Some [])
          | None => (d, rc, None, ArgsNone, None)
          end) :: onwire st /\
  events st' = events st ++ [transport_write (Build_LDAPMessage mid (Request op) c)] /\
  (forall k, k <> mid -> dict_get k (onwire st') = dict_get k (onwire st)) /\
  truthy (connected st) = true /\ dict_in mid (onwire st) = false /\
  needs_answer op = true /\
  buffer st' = buffer st /\ connected st' = connected st /\ heap st' = heap st.
Proof.
  unfold send, _send, bindM, gets, assert_, new_Deferred, register, modify,
    raise, ret in Hsend.
  cbn in Hsend.
  destruct (truthy (connected st)) eqn:Hc; cbn in Hsend; [|discriminate].
  destruct (dict_in mid (onwire st)) eqn:Hin; cbn in Hsend; [discriminate|].
  destruct (needs_answer op); cbn in Hsend; [|discriminate].
  assert (Hk : forall (e : Entry) k, k <> mid ->
                 dict_get k ((mid, e) :: onwire st) = dict_get k (onwire st)).
  { intros e k Hk. simpl. apply Z.eqb_neq in Hk. now rewrite Hk. }
  destruct h; cbn in Hsend; injection Hsend as <- <-; cbn;
    unfold dict_set; rewrite Hin; repeat split; auto.
Qed.

(** X6. A [send] that returns has allocated one Deferred, the one it
    returns, put exactly one new entry in the table, under the message
    id and as the newest item, and written the message with that id;
    this happens only on a connected client, for an operation that
    needs an answer and an id that was not on the wire. Every other
    entry is as before. *)
Theorem send_registers
  (st st' : State) (mid : Z) (op : LDAPProtocolRequest)
  (c : option (list Control)) (h : option Handler) (rc : bool) (d : Deferred)
  (Hsend : send mid op c h rc st = Ok (d, st')) :
  d = fresh st /\ fresh st' = S (fresh st) /\
  onwire st'
  = (mid, match h with
          | Some f => (d, rc, Some f, ArgsList [], Some [])
          | None => (d, rc, None, ArgsNone, None)
          end) :: onwire st /\
  events st' = events st ++ [transport_write (Build_LDAPMessage mid (Request op) c)] /\
  (forall k, k <> mid -> dict_get k (onwire st') = dict_get k (onwire st)) /\
  truthy (connected st) = true /\ dict_in mid (onwire st) = false /\
  needs_answer op = true /\
  buffer st' = buffer st /\ connected st' = connected st /\ heap st' = heap st.
Proof. exact (send_returns st st' mid op c h rc d Hsend). Qed.


Lemma handle_handler_eq msg st d rc h a kw :
  id msg <> 0 -> is_LDAPProtocolResponse (value msg) = true ->
  dict_get (id msg) (onwire st) = Some (d, rc, Some h, a, kw) ->
  args_not_none a = true -> kwargs_not_none kw = true ->
  let pos := handler_args rc msg a in
  let final := fst (h pos (kwargs_items kw) (heap st)) in
  handle msg st
  = Ok (tt, Build_State
              (if final then dict_del (id msg) (onwire st) else onwire st)
              (buffer st) (connected st)
              (snd (h pos (kwargs_items kw) (heap st))) (fresh st)
              (events st
               ++ handler_called pos (kwargs_items kw) final
               :: (if final then [callback d VNone] else []))).
Proof.
  intros Hid Hresp Hget Ha Hk pos final. subst pos final.
  apply Z.eqb_neq in Hid.
  handle_start Hresp Hid Hget. rewrite Ha, Hk. cbn.
  unfold call_handler, handler_args.
  destruct rc; cbn;
    match goal with
    | |- context [h ?x ?y (heap st)] => destruct (h x y (heap st)) as [fin hp]
    end;
    destruct fin; cbn; unfold onwire_delitem; cbn;
    try rewrite (dict_in_get _ _ _ Hget); cbn;
    unfold modify, ret, emit, set_onwire, set_heap; cbn;
    try rewrite <- app_assoc; reflexivity.
Qed.

(** X7. The arguments given with a handler reach it on every response:
    after [send_multiResponse] the handler is called with the response
    followed by [args], after [send_multiResponse_ex] with the response,
    the response's controls and then [args]; [kwargs] are passed in
    both cases. The Deferred is fired, with [None], exactly when the
    handler answers true. *)
Theorem multiResponse_arguments_reach_handler
  (st st1 : State) (mid : Z) (op : LDAPProtocolRequest)
  (c : option (list Control)) (h : Handler) (a : list PyVal)
  (k : list (string * PyVal)) (d : Deferred) (rc : bool) (msg : LDAPMessage)
  (Hsend : rc = false /\
           send_multiResponse mid op (Some h) a k st = Ok (d, st1) \/
           rc = true /\
           send_multiResponse_ex mid op c (Some h) a k st = Ok (d, st1))
  (Hmid : mid <> 0) (Hid : id msg = mid)
  (Hresp : is_LDAPProtocolResponse (value msg) = true) :
  let pos := (if rc then [VOp (value msg); VControls (controls msg)]
              else [VOp (value msg)]) ++ a in
  let final := fst (h pos k (heap st1)) in
  exists st2,
    handle msg st1 = Ok (tt, st2) /\
    heap st2 = snd (h pos k (heap st1)) /\
    events st2
    = events st1 ++ handler_called pos k final
                 :: (if final then [callback d VNone] else []).
Proof.
  intros pos final.
  assert (Hget : dict_get mid (onwire st1)
                 = Some (d, rc, Some h, ArgsTuple a, Some k)).
  { unfold send_multiResponse, send_multiResponse_ex, _send, bindM, gets,
      assert_, new_Deferred, register, modify, raise, ret in Hsend.
    cbn in Hsend.
    destruct (truthy (connected st)); cbn in Hsend;
      [|destruct Hsend as [[_ H]|[_ H]]; discriminate H].
    destruct (dict_in mid (onwire st)) eqn:Hin; cbn in Hsend;
      [destruct Hsend as [[_ H]|[_ H]]; discriminate H|].
    destruct (needs_answer op); cbn in Hsend;
      [|destruct Hsend as [[_ H]|[_ H]]; discriminate H].
    destruct Hsend as [[-> H]|[-> H]]; injection H as <- <-; cbn;
      now apply dict_get_set_new. }
  subst mid.
  eexists. split; [|split].
  - apply (handle_handler_eq msg st1 d rc h (ArgsTuple a) (Some k));
      auto.
  - reflexivity.
  - reflexivity.
Qed.



(** ** Bind *)

(** X13. [_handle_bind_msg] on a bind response (it asserts that the
    response carries no referral): a success result code gives the pair
    of the matched DN and the server's SASL credentials, any other
    result code raises the error [ldaperrors.get] maps it to. Nothing
    but a successful bind response gives a result. *)
Theorem handle_bind_msg_result
  (r : LDAPResult) (creds : option string) (Href : referral r = None) :
  let msg := VOp (Response (LDAPBindResponse r creds)) in
  (resultCode r = Success_resultCode ->
     _handle_bind_msg msg
     = Ok (VPair (VStr (matchedDN r))
                 match creds with Some c => VStr c | None => VNone end)) /\
  (resultCode r <> Success_resultCode ->
     _handle_bind_msg msg
     = Raise (ldaperrors_get (resultCode r) (errorMessage r))) /\
  (forall v out, _handle_bind_msg v = Ok out ->
     exists r' creds',
       v = VOp (Response (LDAPBindResponse r' creds')) /\
       referral r' = None /\ resultCode r' = Success_resultCode).
Proof.
  intros msg. subst msg. unfold _handle_bind_msg. rewrite Href.
  split; [|split].
  - intros ->. reflexivity.
  - intros Hne. apply Z.eqb_neq in Hne. now rewrite Hne.
  - intros v out H.
    destruct v as [|[op|[r' c'|r' rn rs|on|r'|b]]| | | | |]; try discriminate.
    destruct (referral r') eqn:Er; try discriminate.
    destruct (resultCode r' =? Success_resultCode) eqn:Ec; try discriminate.
    apply Z.eqb_eq in Ec. eauto.
Qed.


(** ** STARTTLS in flight *)

(** X15. [_startTLS] only ever sends its request on a connected client
    with an empty table; the request is then the only operation on the
    wire, with [_cbStartTLS] chained on its Deferred, and every further
    [_startTLS] is refused as busy for as long as it is. *)
Theorem startTLS_in_flight
  (st st1 : State) (mid : Z) (ctx : Ctx) (d : Deferred)
  (Hstart : _startTLS mid ctx st = Ok (d, st1)) :
  truthy (connected st) = true /\ onwire st = [] /\
  onwire st1 = [(mid, (d, false, None, ArgsNone, None))] /\
  events st1
  = events st
    ++ [transport_write (Build_LDAPMessage mid (Request LDAPStartTLSRequest) None);
        addCallback d (cb_cbStartTLS ctx)] /\
  (forall mid' ctx',
     _startTLS mid' ctx' st1
     = Raise (LDAPStartTLSBusyError (onwire st1), st1)).
Proof.
  unfold _startTLS, bindM, gets, raise, modify, ret in *. cbn in Hstart.
  destruct (truthy (connected st)) eqn:Hc; cbn in Hstart; [|discriminate].
  destruct (onwire st) eqn:Ho; [|discriminate].
  destruct (send mid LDAPStartTLSRequest None None false st)
    as [[d' s']|[e s']|] eqn:Es; cbn in Hstart; try discriminate.
  injection Hstart as <- <-.
  destruct (send_returns _ _ _ _ _ _ _ _ Es)
    as (-> & Hf & Ho' & He & _ & _ & _ & _ & _ & Hc' & _).
  unfold emit. cbn [events onwire connected].
  rewrite Ho', He, Hc', Hc, Ho. cbn [negb].
  repeat split. rewrite <- app_assoc. reflexivity.
Qed.

End Client.

(** ** A client at work

    The client above is parametric in the decoder and in the handlers'
    heap. To run it, the frames below are a length byte followed by
    that many payload bytes; the first payload byte is the message id,
    and a second payload byte [01] marks the final response of a search.
    The heap is a counter that the example handler increments. *)

Definition success : LDAPResult := Build_LDAPResult 0 "" "" None.

Definition toy_message (payload : bytes) : LDAPMessage :=
  Build_LDAPMessage
    (match payload with
     | [] => 0
     | b :: _ => Z.of_N (Byte.to_N b)
     end)
    (Response (match payload with
               | _ :: x01 :: _ => LDAPSearchResultDone success
               | _ => LDAPSearchResultEntry "cn=entry"
               end))
    None.

Definition toy_decoder (b : bytes) : decoded :=
  match b with
  | [] => Decoded None 0
  | n :: rest =>
      let k := N.to_nat (Byte.to_N n) in
      if (length rest <? k)%nat then BERExceptionInsufficientData
      else Decoded (Some (toy_message (firstn k rest))) (S k)
  end.

(** Final on [LDAPSearchResultDone]; counts its calls on the heap. *)
Definition until_done : @Handler nat :=
  fun args _ calls =>
    (match args with
     | VOp (Response (LDAPSearchResultDone _)) :: _ => true
     | _ => false
     end, S calls).

(** The state after a series of calls. *)
Fixpoint after {Heap} (dec : bytes -> decoded) (calls : list (@Call Heap))
         (st : @State Heap) : @State Heap :=
  match calls with
  | [] => st
  | c :: rest =>
      match run dec c st with
      | Some st' => after dec rest st'
      | None => st
      end
  end.

Lemma after_reachable {Heap} dec (calls : list (@Call Heap)) : forall st,
  reachable dec st -> reachable dec (after dec calls st).
Proof.
  induction calls as [|c calls IH]; intros st Hr; simpl; auto.
  destruct (run dec c st) as [st'|] eqn:E; auto.
  apply IH. eapply reach_call; eauto.
Qed.

Lemma toy_is_frame (n : byte) (payload : bytes) :
  N.to_nat (Byte.to_N n) = length payload ->
  is_frame toy_decoder (n :: payload) (toy_message payload).
Proof.
  intros Hn. split; [discriminate|]. split.
  - intros rest. simpl. rewrite Hn.
    rewrite length_app.
    destruct (length payload + length rest <? length payload)%nat eqn:E.
    + apply Nat.ltb_lt in E. lia.
    + rewrite firstn_app, Nat.sub_diag, firstn_all. simpl.
      now rewrite app_nil_r.
  - intros p q E Hq. destruct p as [|a p].
    + now right.
    + left. simpl in E. injection E as <- ->. simpl. rewrite Hn.
      rewrite length_app.
      destruct (length p <? length p + length q)%nat eqn:E; auto.
      apply Nat.ltb_ge in E. destruct q; [contradiction|]. simpl in E. lia.
Qed.

(** A connected client with a plain operation 7 and a streaming search
    8 on the wire. *)
Definition ex_calls : list (@Call nat) :=
  [ call_connectionMade;
    call_send 7 (LDAPOtherRequest true "compare") None None false;
    call_send 8 (LDAPOtherRequest true "search") None (Some until_done) false ].

Definition ex_client : @State nat := after toy_decoder ex_calls (__init__ 0%nat).

Definition ex_buf : bytes := [x01; x07; x01; x08; x01; x08; x02; x08; x01].

Definition ex_ms : list LDAPMessage :=
  [ toy_message [x07]; toy_message [x08]; toy_message [x08];
    toy_message [x08; x01] ].

Definition ex_chunks : list bytes :=
  [ [x01]; [x07; x01; x08; x01]; []; [x08; x02; x08]; [x01] ].

Lemma ex_client_reachable : reachable toy_decoder ex_client.
Proof. apply after_reachable, reach_init. Qed.

Lemma ex_frames : frames toy_decoder ex_buf ex_ms.
Proof.
  apply (frames_cons toy_decoder [x01; x07]); [now apply toy_is_frame|].
  apply (frames_cons toy_decoder [x01; x08]); [now apply toy_is_frame|].
  apply (frames_cons toy_decoder [x01; x08]); [now apply toy_is_frame|].
  apply (frames_cons toy_decoder [x02; x08; x01] _ [] []);
    [now apply toy_is_frame|].
  constructor.
Qed.

(** The four responses arrive in five chunks: the plain operation is
    resolved with its response, the handler is called three times and
    answers false, false, true, and the search's Deferred is fired, once,
    after the third call; both ids have left the table. *)
Example ex_delivery :
  feed toy_decoder ex_chunks ex_client
  = (ex_ms,
     Ok (tt, Build_State [] [] (Some 1) 3%nat 2%nat
               (events ex_client ++
                [ callback 0%nat (VOp (value (toy_message [x07])));
                  handler_called [VOp (value (toy_message [x08]))] [] false;
                  handler_called [VOp (value (toy_message [x08]))] [] false;
                  handler_called [VOp (value (toy_message [x08; x01]))] [] true;
                  callback 1%nat VNone ]))).
Proof. vm_compute. reflexivity. Qed.

Lemma dataReceived_split_invariant_witness :
  fst (dataReceived toy_decoder ex_buf ex_client) = ex_ms /\
  fst (feed toy_decoder ex_chunks ex_client) = ex_ms /\
  rebuffer [] (snd (feed toy_decoder ex_chunks ex_client))
  = rebuffer [] (snd (dataReceived toy_decoder ex_buf ex_client)) /\
  snd (dataReceived toy_decoder ex_buf ex_client) <> OutOfFuel /\
  snd (feed toy_decoder ex_chunks ex_client) <> OutOfFuel.
Proof.
  destruct (dataReceived_split_invariant toy_decoder ex_client ex_buf ex_ms
              ex_chunks ex_frames)
    as (H1 & H2 & _ & _ & _ & H6 & H7 & H8 & _);
    try reflexivity; [discriminate|].
  split; [rewrite H1; reflexivity|].
  split; [rewrite H2; reflexivity|].
  split; [exact H6|]. split; [exact H7|exact H8].
Defined.

Definition ex_connected : @State nat :=
  after toy_decoder [call_connectionMade] (__init__ 0%nat).

Definition ex_sent : @State nat :=
  after toy_decoder
        [call_send 7 (LDAPOtherRequest true "compare") None None false]
        ex_connected.

(** The scenario of an operation with id 7 and its response. *)
Lemma plain_operation_completes_witness :
  dict_get 7 (onwire ex_sent) = Some (0%nat, false, None, ArgsNone, None) /\
  exists st',
    handle (toy_message [x07]) ex_sent = Ok (tt, st') /\
    events st'
    = events ex_sent ++ [callback 0%nat (VOp (value (toy_message [x07])))] /\
    dict_get 7 (onwire st') = None.
Proof.
  destruct (plain_operation_completes ex_connected ex_sent 7
              (LDAPOtherRequest true "compare") None false 0%nat)
    as (Hreg & Hresp); [reflexivity | lia |].
  split; [exact Hreg|].
  destruct (Hresp ex_sent (toy_message [x07]) Hreg eq_refl eq_refl)
    as (st' & Hh & He & _ & Hgone & _).
  exists st'. auto.
Defined.

Definition ex_reason : Reason := "connection lost"%string.
Definition ex_ctx : Ctx := "tls context"%string.

Lemma connectionLost_fails_all_witness :
  exists st',
    connectionLost ex_reason ex_client = Ok (tt, st') /\
    onwire st' = [] /\
    events st' = events ex_client ++ [errback 1%nat ex_reason;
                                      errback 0%nat ex_reason] /\
    connectionLost ex_reason st' = Ok (tt, st').
Proof.
  destruct (connectionLost_fails_all toy_decoder ex_client ex_reason
              ex_client_reachable)
    as (st' & Hc & Ho & _ & He & _ & Hagain).
  exists st'. auto.
Defined.

Lemma streaming_operation_step_witness :
  exists st',
    handle (toy_message [x08]) ex_client = Ok (tt, st') /\
    heap st' = 1%nat /\
    events st'
    = events ex_client
      ++ [handler_called [VOp (value (toy_message [x08]))] [] false] /\
    onwire st' = onwire ex_client.
Proof.
  destruct (streaming_operation_step ex_client (toy_message [x08]) 1%nat
              false until_done (ArgsList []) (Some []))
    as (st' & Hh & Hheap & _ & _ & Hfalse & _);
    try reflexivity; [cbn; lia|].
  destruct (Hfalse eq_refl) as (He & Ho).
  exists st'. auto.
Defined.

Lemma startTLS_busy_witness :
  _startTLS 9 ex_ctx ex_client
  = Raise (LDAPStartTLSBusyError (onwire ex_client), ex_client) /\
  truthy (connected ex_client) = true.
Proof.
  apply (startTLS_busy toy_decoder ex_client 9 ex_ctx
           ex_client_reachable).
  discriminate.
Defined.

Lemma cbStartTLS_validates_witness :
  _cbStartTLS
    (VOp (Response (LDAPExtendedResponse
                      (Build_LDAPResult 2 "" "protocol error" None)
                      None None)))
    ex_ctx ex_connected
  = Raise (ldaperrors_get 2 "protocol error", ex_connected).
Proof.
  destruct (cbStartTLS_validates ex_connected
              (Build_LDAPResult 2 "" "protocol error" None) None None
              ex_ctx eq_refl)
    as (H & _).
  apply H. discriminate.
Defined.

Lemma unknown_id_raises_witness :
  handle (toy_message [x05]) ex_client = Raise (KeyError 5, ex_client) /\
  dataReceived toy_decoder [x01; x05; x01; x07] ex_client
  = ([toy_message [x05]],
     Raise (KeyError 5, set_buffer [x01; x07] ex_client)).
Proof.
  destruct (unknown_id_raises toy_decoder ex_client (toy_message [x05]))
    as (H1 & H2); [cbn; lia | reflexivity |].
  split; [exact H1|].
  apply (H2 [x01; x05; x01; x07] 2%nat). reflexivity.
Defined.

(** ** The further properties at work *)

Lemma toy_progress : decoder_progress toy_decoder.
Proof.
  intros b m used H. destruct b as [|n rest]; simpl in H; [discriminate|].
  destruct (length rest <? N.to_nat (Byte.to_N n))%nat; [discriminate|].
  injection H as _ <-. split; [lia | discriminate].
Qed.

Definition ex_after7 : @State nat :=
  after toy_decoder [call_handle (toy_message [x07])] ex_client.

Lemma handle_touches_only_its_id_witness :
  dict_get 8 (onwire ex_after7) = dict_get 8 (onwire ex_client) /\
  fired (events ex_after7) = [0%nat] /\
  buffer ex_after7 = buffer ex_client.
Proof.
  destruct (handle_touches_only_its_id (toy_message [x07]) ex_client ex_after7
              eq_refl)
    as (Hk & _ & _ & Hb & _).
  split; [apply Hk; discriminate|]. split; [reflexivity|exact Hb].
Defined.



Lemma dataReceived_terminates_witness :
  decoder_progress toy_decoder /\
  snd (dataReceived toy_decoder ex_buf ex_client) <> OutOfFuel.
Proof.
  split; [exact toy_progress|].
  apply (dataReceived_terminates toy_decoder toy_progress ex_buf ex_client).
Defined.

Lemma disconnected_client_refuses_witness :
  send 7 (LDAPOtherRequest true "compare") None None false (__init__ 0%nat)
  = Raise (LDAPClientConnectionLostException, __init__ 0%nat) /\
  unbind 7 (__init__ 0%nat)
  = Raise (Exception "Not connected (TODO)", __init__ 0%nat).
Proof.
  destruct (disconnected_client_refuses (__init__ 0%nat) eq_refl)
    as (Hs & _ & _ & _ & _ & Hu & _).
  split; [apply Hs | apply Hu].
Defined.

(** The id 7 is already on the wire. *)
Lemma refused_send_leaves_no_trace_witness :
  send 7 (LDAPOtherRequest true "modify") None None false ex_client
  = Raise (AssertionError, ex_client) /\
  send_multiResponse 7 (LDAPOtherRequest true "modify") None [] [] ex_client
  = Raise (AssertionError, ex_client).
Proof.
  destruct (refused_send_leaves_no_trace ex_client 7
              (LDAPOtherRequest true "modify") None None false [] [] eq_refl)
    as (H & _).
  destruct (H eq_refl) as (H1 & H2 & _).
  split; [exact H1|exact H2].
Defined.

Lemma send_registers_witness :
  dict_get 7 (onwire ex_sent) = Some (0%nat, false, None, ArgsNone, None) /\
  fresh ex_sent = 1%nat /\
  events ex_sent
  = events ex_connected
    ++ [transport_write
          (Build_LDAPMessage 7 (Request (LDAPOtherRequest true "compare")) None)].
Proof.
  destruct (send_registers ex_connected ex_sent 7
              (LDAPOtherRequest true "compare") None None false 0%nat eq_refl)
    as (_ & Hf & Ho & He & _).
  split; [rewrite Ho; reflexivity|]. split; [exact Hf|exact He].
Defined.

Definition ex_search_ex : @State nat :=
  after toy_decoder
        [call_send_multiResponse_ex 8 (LDAPOtherRequest true "search") None
           (Some until_done) [VInt 1] [("page"%string, VInt 2)]]
        ex_connected.

Lemma multiResponse_arguments_reach_handler_witness :
  exists st2,
    handle (toy_message [x08; x01]) ex_search_ex = Ok (tt, st2) /\
    heap st2 = 1%nat /\
    events st2
    = events ex_search_ex
      ++ [handler_called
            [VOp (value (toy_message [x08; x01])); VControls None; VInt 1]
            [("page"%string, VInt 2)] true;
          callback 0%nat VNone].
Proof.
  destruct (multiResponse_arguments_reach_handler ex_connected ex_search_ex 8
              (LDAPOtherRequest true "search") None until_done [VInt 1]
              [("page"%string, VInt 2)] 0%nat true (toy_message [x08; x01]))
    as (st2 & Hh & Hheap & He);
    [right; split; reflexivity | lia | reflexivity | reflexivity |].
  exists st2. split; [exact Hh|]. split; [exact Hheap|exact He].
Defined.


Lemma handle_bind_msg_result_witness :
  @_handle_bind_msg nat
    (VOp (Response (LDAPBindResponse
                      (Build_LDAPResult 49 "" "invalid credentials" None)
                      None)))
  = Raise (ldaperrors_get 49 "invalid credentials").
Proof.
  destruct (@handle_bind_msg_result nat
              (Build_LDAPResult 49 "" "invalid credentials" None) None eq_refl)
    as (_ & H & _).
  apply H. discriminate.
Defined.



Definition ex_upgrading : @State nat :=
  after toy_decoder [call__startTLS 9 ex_ctx] ex_connected.

Lemma startTLS_in_flight_witness :
  onwire ex_upgrading = [(9, (0%nat, false, None, ArgsNone, None))] /\
  _startTLS 10 ex_ctx ex_upgrading
  = Raise (LDAPStartTLSBusyError (onwire ex_upgrading), ex_upgrading).
Proof.
  destruct (startTLS_in_flight ex_connected ex_upgrading 9 ex_ctx 0%nat eq_refl)
    as (_ & _ & Ho & _ & Hbusy).
  split; [exact Ho|apply Hbusy].
Defined.

End LDAP.

(* ================================================================== *)
(** * duoauthproxy/modules/radius_client.py *)
(* ================================================================== *)

Module Radius.

Local Open Scope py_scope.

(** A RADIUS packet as the module reads it: its [code], and the
    attributes it maps names to, in order. *)
Record Packet : Type := Build_Packet {
  code : Z;
  attributes : list (string * list string)
}.

(** [list(dict(packet).keys())]. *)
Definition keys (p : Packet) : list string := map fst (attributes p).

(** The normalised result (spec, data model): accepted or not, the
    attributes passed through, and the protocol's own status. *)
Record AuthResult : Type := Build_AuthResult {
  accepted : bool;
  radius_attrs : list (string * list string);
  rawCode : Z
}.

Inductive Exn : Type :=
| PacketError (response_code : Z)
| Failure (what : string).

(** The calls made on [self.protocol], the [RadiusClient]. *)
Inductive ProtocolCall : Type :=
| protocol_authenticate (username password client_ip : string)
                        (pass_through_attrs : list (string * list string))
| protocol_radius_proxy (request : Packet).

(** What a [yield] on the protocol's Deferred gives back: the response
    packet, the exception the Deferred failed with, or nothing as long
    as the Deferred has not fired. *)
Definition Protocol : Type := ProtocolCall -> outcome Exn Packet.

(** The attributes of the module object that the two calls read. *)
Record RadiusModule : Type := Build_RadiusModule {
  pass_through_attr_names : list string;
  pass_through_all : bool;
  protocol : Protocol
}.

Section Constants.

(** [pyrad.packet.AccessAccept], [pyrad.packet.AccessReject] and
    [lib.radius.base.MS_CHAP2_RESPONSE_ATTRS] are imported constants. *)
Variables AccessAccept AccessReject : Z.
Variable MS_CHAP2_RESPONSE_ATTRS : list string.

Definition name_in (names : list string) (name : string) : bool :=
  existsb (String.eqb name) names.

(** Modelled from the spec: [AuthResult.from_radius_packet]
    (duoauthproxy/lib/base.py) is not among the sources. By the spec's
    AuthResultBuilder, the result says whether the response is an
    Access-Accept, keeps its code, and copies from the response the
    attributes whose names are selected. *)
Definition from_radius_packet (response_packet : Packet)
           (names : list string) : AuthResult :=
  Build_AuthResult
    (code response_packet =? AccessAccept)
    (filter (fun kv => name_in names (fst kv)) (attributes response_packet))
    (code response_packet).

(** [x in (a, b)]. *)
Definition in_pair (x a b : Z) : bool := (x =? a) || (x =? b).

(** The call returns the calls it made on the protocol with its result. *)
Definition authenticate (self : RadiusModule)
           (username password client_ip : string)
           (pass_through_attrs : option (list (string * list string)))
  : list ProtocolCall * outcome Exn AuthResult :=
  let pass_through_attrs :=
    match pass_through_attrs with None => [] | Some a => a end in
  let call :=
    protocol_authenticate username password client_ip pass_through_attrs in
  ([call],
   response_packet <- protocol self call ;;
   if negb (in_pair (code response_packet) AccessAccept AccessReject) then
     Raise (PacketError (code response_packet))
   else
     let names :=
       if pass_through_all self then keys response_packet
       else pass_through_attr_names self ++ MS_CHAP2_RESPONSE_ATTRS in
     let result := from_radius_packet response_packet names in
     Ok result).

Definition radius_proxy (self : RadiusModule) (request : Packet)
  : list ProtocolCall * outcome Exn AuthResult :=
  let call := protocol_radius_proxy request in
  ([call],
   response_packet <- protocol self call ;;
   let names := keys response_packet in
   let auth_result := from_radius_packet response_packet names in
   Ok auth_result).

Lemma name_in_In names name : name_in names name = true <-> In name names.
Proof.
  unfold name_in. rewrite existsb_exists. split.
  - intros (x & Hx & E). apply String.eqb_eq in E. now subst.
  - intros H. exists name. split; auto. apply String.eqb_refl.
Qed.

Lemma from_radius_packet_names p names name :
  In name (map fst (radius_attrs (from_radius_packet p names)))
  <-> In name (keys p) /\ In name names.
Proof.
  unfold from_radius_packet, keys. simpl.
  rewrite !in_map_iff. split.
  - intros ([k v] & <- & H). apply filter_In in H as [H1 H2].
    simpl in *. split.
    + exists (k, v). auto.
    + now apply name_in_In.
  - intros (([k v] & <- & H) & Hn). exists (k, v). split; auto.
    apply filter_In. split; auto. now apply name_in_In.
Qed.

(** C5. When [pass_through_all] is false and the response is an
    Access-Accept or an Access-Reject, [authenticate] builds its result
    from the response with exactly the configured names followed by the
    MS-CHAPv2 response attributes selected; the result then carries an
    attribute of the response if and only if its name is configured or
    is one of the MS-CHAPv2 response attributes. *)
Theorem authenticate_selects_names
  (self : RadiusModule) (username password client_ip : string)
  (pass_through_attrs : option (list (string * list string)))
  (response : Packet)
  (Hall : pass_through_all self = false)
  (Hresp : protocol self
             (protocol_authenticate username password client_ip
                match pass_through_attrs with None => [] | Some a => a end)
           = Ok response)
  (Hcode : code response = AccessAccept \/ code response = AccessReject) :
  let names := pass_through_attr_names self ++ MS_CHAP2_RESPONSE_ATTRS in
  let result := from_radius_packet response names in
  snd (authenticate self username password client_ip pass_through_attrs)
  = Ok result /\
  (forall name,
     In name names <->
     In name (pass_through_attr_names self) \/
     In name MS_CHAP2_RESPONSE_ATTRS) /\
  (forall name,
     In name (map fst (radius_attrs result)) <->
     In name (keys response) /\
     (In name (pass_through_attr_names self) \/
      In name MS_CHAP2_RESPONSE_ATTRS)).
Proof.
  intros names result. split; [|split].
  - unfold authenticate. cbn [snd]. rewrite Hresp. cbn [bind].
    assert (E : in_pair (code response) AccessAccept AccessReject = true).
    { unfold in_pair. apply orb_true_iff.
      destruct Hcode as [-> | ->]; [left | right]; apply Z.eqb_refl. }
    rewrite E, Hall. reflexivity.
  - intros name. subst names. apply in_app_iff.
  - intros name. subst result names.
    rewrite from_radius_packet_names, in_app_iff. reflexivity.
Qed.

(** C8, as the code has it. On the [authenticate] path a response whose
    code is neither Access-Accept nor Access-Reject raises
    [PacketError] at once: the protocol has been called once, and no
    result is built. On the [radius_proxy] path the code is not looked
    at: the response is relayed, whatever its code, as a result that
    carries all of its attributes. *)
Theorem other_codes_fail_authenticate_only
  (self : RadiusModule) (username password client_ip : string)
  (pass_through_attrs : option (list (string * list string)))
  (request response : Packet)
  (Hresp : protocol self
             (protocol_authenticate username password client_ip
                match pass_through_attrs with None => [] | Some a => a end)
           = Ok response)
  (Hproxy : protocol self (protocol_radius_proxy request) = Ok response)
  (Haccept : code response <> AccessAccept)
  (Hreject : code response <> AccessReject) :
  authenticate self username password client_ip pass_through_attrs
  = ([protocol_authenticate username password client_ip
        match pass_through_attrs with None => [] | Some a => a end],
     Raise (PacketError (code response))) /\
  radius_proxy self request
  = ([protocol_radius_proxy request],
     Ok (from_radius_packet response (keys response))).
Proof.
  split.
  - unfold authenticate. rewrite Hresp. cbn [bind].
    assert (E : in_pair (code response) AccessAccept AccessReject = false).
    { unfold in_pair. apply orb_false_iff. split; now apply Z.eqb_neq. }
    now rewrite E.
  - unfold radius_proxy. now rewrite Hproxy.
Qed.

(** X16. With [pass_through_all] set, [authenticate] selects the names
    the relay selects, the keys of the response itself: for an
    Access-Accept or Access-Reject the two calls build the same result
    from the same response. *)
Theorem relay_is_pass_through_all
  (self : RadiusModule) (username password client_ip : string)
  (pass_through_attrs : option (list (string * list string)))
  (request response : Packet)
  (Hall : pass_through_all self = true)
  (Hresp : protocol self
             (protocol_authenticate username password client_ip
                match pass_through_attrs with None => [] | Some a => a end)
           = Ok response)
  (Hproxy : protocol self (protocol_radius_proxy request) = Ok response)
  (Hcode : code response = AccessAccept \/ code response = AccessReject) :
  snd (authenticate self username password client_ip pass_through_attrs)
  = snd (radius_proxy self request) /\
  snd (authenticate self username password client_ip pass_through_attrs)
  = Ok (from_radius_packet response (keys response)).
Proof.
  unfold authenticate, radius_proxy. cbn [snd].
  rewrite Hresp, Hproxy. cbn [bind].
  assert (E : in_pair (code response) AccessAccept AccessReject = true).
  { unfold in_pair. apply orb_true_iff.
    destruct Hcode as [-> | ->]; [left | right]; apply Z.eqb_refl. }
  rewrite E, Hall. split; reflexivity.
Qed.

End Constants.

(** ** The calls at work; Access-Accept is 2, Access-Reject is 3 and
    Access-Challenge is 11. *)

Definition ex_response : Packet :=
  Build_Packet 2 [ ("A", ["a"]); ("B", ["b"]); ("M1", ["m1"]); ("M2", ["m2"]) ]%string.

Definition ex_challenge : Packet :=
  Build_Packet 11 [ ("State", ["s"]); ("Reply-Message", ["enter the code"]) ]%string.

Definition ex_module (answer : Packet) : RadiusModule :=
  Build_RadiusModule ["A"]%string false (fun _ => Ok answer).

(** The spec's example: allow-list [A], response with [A], [B] and the
    MS-CHAPv2 attributes [M1], [M2]. *)
Lemma authenticate_selects_names_witness :
  snd (authenticate 2 3 ["M1"; "M2"]%string (ex_module ex_response)
         "user" "password" "10.0.0.1" None)
  = Ok (Build_AuthResult true
          [ ("A", ["a"]); ("M1", ["m1"]); ("M2", ["m2"]) ]%string 2) /\
  ~ In "B"%string
       (map fst (radius_attrs
                   (from_radius_packet 2 ex_response
                      ["A"; "M1"; "M2"]%string))).
Proof.
  destruct (authenticate_selects_names 2 3 ["M1"; "M2"]%string
              (ex_module ex_response) "user" "password" "10.0.0.1" None
              ex_response eq_refl eq_refl (or_introl eq_refl))
    as (H1 & _ & H3).
  split; [exact H1|].
  intros HB. apply H3 in HB. destruct HB as (_ & [HB|HB]); simpl in HB;
    intuition discriminate.
Defined.

(** C8 as stated fails on the relay path: an Access-Challenge handed
    back by the protocol makes [radius_proxy] return a result. *)
Lemma radius_proxy_relays_challenge :
  code ex_challenge <> 2 /\ code ex_challenge <> 3 /\
  snd (radius_proxy 2 (ex_module ex_challenge) (Build_Packet 1 []))
  = Ok (Build_AuthResult false (attributes ex_challenge) 11).
Proof. repeat split; discriminate. Qed.

Lemma other_codes_fail_authenticate_only_witness :
  snd (authenticate 2 3 ["M1"; "M2"]%string (ex_module ex_challenge)
         "user" "password" "10.0.0.1" None)
  = Raise (PacketError 11) /\
  snd (radius_proxy 2 (ex_module ex_challenge) (Build_Packet 1 []))
  = Ok (from_radius_packet 2 ex_challenge (keys ex_challenge)).
Proof.
  destruct (other_codes_fail_authenticate_only 2 3 ["M1"; "M2"]%string
              (ex_module ex_challenge) "user" "password" "10.0.0.1" None
              (Build_Packet 1 []) ex_challenge eq_refl eq_refl)
    as (H1 & H2); try discriminate.
  rewrite H1, H2. split; reflexivity.
Defined.

Definition ex_module_all (answer : Packet) : RadiusModule :=
  Build_RadiusModule ["A"]%string true (fun _ => Ok answer).

Lemma relay_is_pass_through_all_witness :
  snd (authenticate 2 3 ["M1"; "M2"]%string (ex_module_all ex_response)
         "user" "password" "10.0.0.1" None)
  = snd (radius_proxy 2 (ex_module_all ex_response) (Build_Packet 1 [])).
Proof.
  destruct (relay_is_pass_through_all 2 3 ["M1"; "M2"]%string
              (ex_module_all ex_response) "user" "password" "10.0.0.1" None
              (Build_Packet 1 []) ex_response eq_refl eq_refl eq_refl
              (or_introl eq_refl))
    as (H & _).
  exact H.
Defined.

End Radius.
